(** * First-Come-First-Served scheduling: the [fcfs] function of
      [src/app/projects/fcfs/page.tsx]

    A shallow embedding of the scheduling core of the page (the function
    [fcfs], lines 73-139) and the properties its specification states.

    Modelling conventions.
    - JavaScript numbers are modelled as [Z]: the caller builds the
      arrival and burst times with [parseInt] from strings of digits, and
      the data model of the specification gives them as integers.  The
      model follows the code where its numbers are integers that a double
      holds exactly (up to 2^53) and where its arrays can be built; a
      call of [fcfs] that the host aborts has no output to speak of.
    - Strings are [string]; the label type [string | "IDLE"] of the source
      is plain [string], with the constant [IDLE] for the literal.
    - [String.prototype.localeCompare] is a builtin of the host whose result
      depends on the collation of the runtime: it is a parameter of the
      development (a [Variable] of the section below).
    - [Array.prototype.sort] is a builtin as well; ECMAScript requires it to
      be stable, and it is modelled as a stable insertion sort driven by the
      comparator of the call site. *)

From Stdlib Require Import Ascii DecimalString DecimalNat DecimalN.
From stdpp Require Import base decidable numbers list sorting strings gmap relations.

Local Open Scope Z_scope.

(** ** Data model (lines 31-55) *)

(** The argument type of [fcfs]: [{ pid: string; arrival: number; burst: number }]. *)
Record Process := mkProcess {
  pid : string;
  arrival : Z;
  burst : Z
}.

(** [interface ProcessResult]: the three fields of the process, spread into
    the result object, and the three computed metrics. *)
Record ProcessResult := mkProcessResult {
  res_pid : string;
  res_arrival : Z;
  res_burst : Z;
  completion : Z;
  turnaround : Z;
  waiting : Z
}.

(** [interface GanttBlock]; [end] is reserved in Rocq, hence [end_]. *)
Record GanttBlock := mkGanttBlock {
  process : string;
  start : Z;
  end_ : Z
}.

(** The object returned by [fcfs] (lines 133-138). *)
Record FcfsOutput := mkFcfsOutput {
  ganttBlocks : list GanttBlock;
  timeMarkers : list Z;
  totalTime : Z;
  results : list ProcessResult
}.

#[global] Instance Process_eq_dec : EqDecision Process.
Proof. solve_decision. Defined.
#[global] Instance ProcessResult_eq_dec : EqDecision ProcessResult.
Proof. solve_decision. Defined.
#[global] Instance GanttBlock_eq_dec : EqDecision GanttBlock.
Proof. solve_decision. Defined.

(** The literal ["IDLE"]. *)
Definition IDLE : string := "IDLE".

(** ** Builtins of the host *)

(** [Array.prototype.sort(cmp)]: [a] is placed after [b] only when
    [cmp a b > 0]; elements that compare equal keep their order. *)
Fixpoint sort_insert {A} (cmp : A → A → Z) (x : A) (l : list A) : list A :=
  match l with
  | [] => [x]
  | y :: ys => if bool_decide (cmp x y > 0) then y :: sort_insert cmp x ys
               else x :: y :: ys
  end.

Definition Array_sort {A} (cmp : A → A → Z) (l : list A) : list A :=
  foldr (sort_insert cmp) [] l.

(** [Array.from(new Set(l))]: the elements of [l] in the order of their
    first occurrence. *)
Definition Set_add (acc : list Z) (x : Z) : list Z :=
  if decide (x ∈ acc) then acc else acc ++ [x].

Definition Array_from_Set (l : list Z) : list Z := foldl Set_add [] l.

(** [x || 0] on an array read [a[a.length - 1]]: [undefined] and [0] are
    falsy, every other integer is truthy. *)
Definition or_zero (x : option Z) : Z :=
  match x with
  | Some v => if decide (v = 0) then 0 else v
  | None => 0
  end.

(** ** The scheduler *)

(** State of the simulation loop (lines 79-81). *)
Record SimState := mkSimState {
  time : Z;
  done : list ProcessResult;
  uncompressedTimeline : list string
}.

Definition initialSimState : SimState :=
  {| time := 0; done := []; uncompressedTimeline := [] |}.

(** One iteration of [for (const current of procs)] (lines 83-110).  A loop
    [for (let i = 0; i < n; i++) push(x)] pushes [Z.to_nat n] copies of
    [x]: none when [n <= 0]. *)
Definition fcfs_step (st : SimState) (current : Process) : SimState :=
  let idle := bool_decide (arrival current > time st) in
  let idleUnits :=
    if idle then replicate (Z.to_nat (arrival current - time st)) IDLE else [] in
  let startTime := if idle then arrival current else time st in
  let completionTime := startTime + burst current in
  {| time := completionTime;
     done := done st ++
       [ {| res_pid := pid current;
            res_arrival := arrival current;
            res_burst := burst current;
            completion := completionTime;
            turnaround := completionTime - arrival current;
            waiting := completionTime - arrival current - burst current |} ];
     uncompressedTimeline :=
       uncompressedTimeline st ++ idleUnits ++
       replicate (Z.to_nat (burst current)) (pid current) |}.

Definition simulate (procs : list Process) : SimState :=
  foldl fcfs_step initialSimState procs.

(** State of the compression loop (lines 113-114). *)
Record CompressState := mkCompressState {
  blockStart : nat;
  blocks : list GanttBlock
}.

(** One iteration of [for (let t = 0; t < uncompressedTimeline.length; t++)]
    (lines 115-127).  Reading one past the end gives [undefined], which
    differs from every string. *)
Definition compress_step (tl : list string) (st : CompressState) (t : nat)
  : CompressState :=
  match tl !! t with
  | Some currentProcess =>
      if bool_decide (t = (length tl - 1)%nat)
         || bool_decide (tl !! (t + 1)%nat ≠ Some currentProcess)
      then {| blockStart := (t + 1)%nat;
              blocks := blocks st ++
                [ {| process := currentProcess;
                     start := Z.of_nat (blockStart st);
                     end_ := Z.of_nat (t + 1) |} ] |}
      else st
  | None => st
  end.

Definition compress (tl : list string) : list GanttBlock :=
  blocks (foldl (compress_step tl)
                {| blockStart := 0%nat; blocks := [] |}
                (seq 0 (length tl))).

(** Line 130. *)
Definition markers_of (bs : list GanttBlock) : list Z :=
  Array_sort (λ a b, a - b) (Array_from_Set ((start <$> bs) ++ (end_ <$> bs))).

(** Lines 112-138: everything [fcfs] does after the simulation loop. *)
Definition fcfs_output (st : SimState) : FcfsOutput :=
  let ganttBlocks := compress (uncompressedTimeline st) in
  let timeMarkers := markers_of ganttBlocks in
  let totalTime := or_zero (last timeMarkers) in
  {| ganttBlocks := ganttBlocks;
     timeMarkers := timeMarkers;
     totalTime := totalTime;
     results := done st |}.

(** [(p) => ({ ...p })]: a fresh object with the fields of [p]. *)
Definition spread (p : Process) : Process :=
  {| pid := pid p; arrival := arrival p; burst := burst p |}.

(** ** The store

    [fcfs] receives a reference to an array of references to process
    objects, and [Array.prototype.sort] sorts in place.  To state that a
    call leaves its argument alone the store is made explicit: a finite
    map from locations to cells, threaded through a state-and-failure
    monad.  The arrays and objects that [fcfs] builds for its result are
    fresh, and are returned by value. *)

Abbreviation loc := nat (only parsing).

Inductive cell :=
  | ObjProcess (p : Process)
  | ArrayOfRefs (elems : list loc).

Abbreviation heap := (gmap loc cell).

Definition M (A : Type) : Type := heap → option (A * heap).

Definition ret {A} (a : A) : M A := λ h, Some (a, h).

Definition bind {A B} (m : M A) (k : A → M B) : M B :=
  λ h, match m h with
       | Some (a, h') => k a h'
       | None => None
       end.

Notation "'let*' x ':=' m 'in' k" := (bind m (λ x, k))
  (at level 10, x name, m at level 100, k at level 200, only parsing).

(** Allocation of a fresh cell. *)
Definition alloc (c : cell) : M loc :=
  λ h, let l := fresh (dom h) in Some (l, <[l := c]> h).

(** Reading through a reference; a reference of the wrong kind is a
    [TypeError]. *)
Definition read_obj (l : loc) : M Process :=
  λ h, match h !! l with
       | Some (ObjProcess p) => Some (p, h)
       | _ => None
       end.

Definition read_arr (l : loc) : M (list loc) :=
  λ h, match h !! l with
       | Some (ArrayOfRefs elems) => Some (elems, h)
       | _ => None
       end.

(** Overwriting the elements of an existing array. *)
Definition write_arr (l : loc) (elems : list loc) : M unit :=
  λ h, match h !! l with
       | Some (ArrayOfRefs _) => Some (tt, <[l := ArrayOfRefs elems]> h)
       | _ => None
       end.

Fixpoint mapM {A B} (f : A → M B) (l : list A) : M (list B) :=
  match l with
  | [] => ret []
  | x :: xs => let* y := f x in let* ys := mapM f xs in ret (y :: ys)
  end.

Fixpoint foldM {A S} (f : S → A → M S) (s : S) (l : list A) : M S :=
  match l with
  | [] => ret s
  | x :: xs => let* s' := f s x in foldM f s' xs
  end.

(** [processes.map((p) => ({ ...p }))] (lines 75-76): a new array of new
    objects. *)
Definition Array_map_spread (processes : loc) : M loc :=
  let* elems := read_arr processes in
  let* copies := mapM (λ l, let* p := read_obj l in alloc (ObjProcess (spread p))) elems in
  alloc (ArrayOfRefs copies).

(** [for (const current of procs)] (lines 83-110). *)
Definition for_of_procs (procs : loc) : M SimState :=
  let* elems := read_arr procs in
  foldM (λ st l, let* current := read_obj l in ret (fcfs_step st current))
        initialSimState elems.

Section Fcfs.

(** [a.localeCompare(b)] of the host. *)
Variable localeCompare : string → string → Z.

(** The comparator of line 77:
    [a.arrival - b.arrival || a.pid.localeCompare(b.pid)]. *)
Definition compareProcs (a b : Process) : Z :=
  let d := arrival a - arrival b in
  if decide (d = 0) then localeCompare (pid a) (pid b) else d.

(** The constant [procs] of lines 75-77: a sorted copy of the input. *)
Definition procs (processes : list Process) : list Process :=
  Array_sort compareProcs (spread <$> processes).

(** [fcfs] (lines 73-139), as a function of the contents of its
    argument. *)
Definition fcfs (processes : list Process) : FcfsOutput :=
  fcfs_output (simulate (procs processes)).

(** [.sort(cmp)] (line 77) on the store: the array is sorted in place
    and returned.  The comparator only reads its arguments. *)
Definition Array_sort_in_place (arr : loc) : M loc :=
  let* elems := read_arr arr in
  let* objs := mapM (λ l, let* p := read_obj l in ret (l, p)) elems in
  let* u := write_arr arr
        (fst <$> Array_sort (λ a b, compareProcs (snd a) (snd b)) objs) in
  ret arr.

(** [fcfs] (lines 73-139) on the store. *)
Definition fcfs_on_store (processes : loc) : M FcfsOutput :=
  let* copied := Array_map_spread processes in
  let* procs := Array_sort_in_place copied in
  let* st := for_of_procs procs in
  ret (fcfs_output st).

End Fcfs.

(** A collation that orders strings by their code units, used to run the
    model on concrete inputs. *)
Definition codeUnitCompare (a b : string) : Z :=
  match String.compare a b with
  | Lt => -1
  | Eq => 0
  | Gt => 1
  end.

(** ** The page around the scheduler (lines 6, 58-66, 154-167, 194-222,
    325-397, 519-520)

    The component keeps four pieces of state and changes them in its event
    handlers; each handler is modelled as a function on the state it
    closes over.  A field of a row is a number or the empty string
    ([number | ""]): [option Z], with [None] for [""]. *)

Definition MAX_TIME_UNIT : Z := 500.

(** [interface Process] (lines 31-35), a row of the input table. *)
Record ProcessInput := mkProcessInput {
  in_pid : string;
  in_arrival : option Z;
  in_burst : option Z
}.

(** [interface GanttData] (lines 51-55). *)
Record GanttData := mkGanttData {
  gd_ganttBlocks : list GanttBlock;
  gd_timeMarkers : list Z;
  gd_totalTime : Z
}.

(** The four [useState] cells of [FCFSSimulator] (lines 325-328). *)
Record PageState := mkPageState {
  st_processes : list ProcessInput;
  st_results : option (list ProcessResult);
  st_ganttData : option GanttData;
  st_error : string
}.

(** [getInitialProcesses] (lines 60-66). *)
Definition getInitialProcesses : list ProcessInput :=
  [ mkProcessInput "P1" None None;
    mkProcessInput "P2" None None;
    mkProcessInput "P3" None None;
    mkProcessInput "P4" None None;
    mkProcessInput "P5" None None ].

Definition initialPageState : PageState :=
  {| st_processes := getInitialProcesses;
     st_results := None;
     st_ganttData := None;
     st_error := "" |}.

(** The decimal form of an array length or index, as a template literal
    prints it. *)
Definition number_to_string (n : nat) : string :=
  NilEmpty.string_of_uint (Nat.to_uint n).

(** The template literal [`P${n}`] (lines 348 and 358). *)
Definition pid_of_number (n : nat) : string :=
  String "P"%char (number_to_string n).

(** [Number.MAX_SAFE_INTEGER], 2^53 - 1: up to it every integer is a
    double, and [parseInt] of its decimal form returns it exactly. *)
Definition MAX_SAFE_INTEGER : N := 9007199254740991.

(** The test [/^\d*$/] and [parseInt] in one: the decimal value of a string
    made of digits only, [None] for any other string.  On a non-empty
    string of digits [parseInt] returns that value where it is at most
    [MAX_SAFE_INTEGER]; above it the host rounds to a double, which this
    model, with its numbers in [Z], does not follow. *)
Definition digits_value (value : string) : option Z :=
  (λ d, Z.of_N (N.of_uint d)) <$> NilEmpty.uint_of_string value.

(** [keyof Process]. *)
Inductive Field := FieldPid | FieldArrival | FieldBurst.

Definition set_field (field : Field) (value : string) (v : option Z)
    (row : ProcessInput) : ProcessInput :=
  match field with
  | FieldPid => {| in_pid := value; in_arrival := in_arrival row;
                   in_burst := in_burst row |}
  | FieldArrival => {| in_pid := in_pid row; in_arrival := v;
                       in_burst := in_burst row |}
  | FieldBurst => {| in_pid := in_pid row; in_arrival := in_arrival row;
                     in_burst := v |}
  end.

(** [updateField] (lines 330-343).  [None] is the [TypeError] of writing
    to [updated[i]] when [i] is past the end.  A value that is not made of
    digits returns before [setProcesses], after [setError("")]. *)
Definition updateField (i : nat) (field : Field) (value : string)
    (st : PageState) : option PageState :=
  let updated := st_processes st in
  let store v :=
    row ← updated !! i;
    Some {| st_processes := <[i := set_field field value v row]> updated;
            st_results := st_results st;
            st_ganttData := st_ganttData st;
            st_error := "" |} in
  match field with
  | FieldPid => store None
  | _ =>
      match digits_value value with
      | None => Some {| st_processes := st_processes st;
                        st_results := st_results st;
                        st_ganttData := st_ganttData st;
                        st_error := "" |}
      | Some n => store (if decide (value = "") then None else Some n)
      end
  end.

(** [addProcess] (lines 345-352). *)
Definition addProcess (st : PageState) : PageState :=
  {| st_processes :=
       st_processes st ++
       [ {| in_pid := pid_of_number (length (st_processes st) + 1);
            in_arrival := None; in_burst := None |} ];
     st_results := None;
     st_ganttData := None;
     st_error := st_error st |}.

(** [removeProcess] (lines 354-362): [splice(i, 1)] removes the row at
    [i], or nothing past the end; the rows left are numbered anew. *)
Definition removeProcess (i : nat) (st : PageState) : PageState :=
  let copy := delete i (st_processes st) in
  let renumbered :=
    imap (λ index p, {| in_pid := pid_of_number (index + 1);
                        in_arrival := in_arrival p;
                        in_burst := in_burst p |}) copy in
  {| st_processes := renumbered;
     st_results := None;
     st_ganttData := None;
     st_error := st_error st |}.

(** The predicate of the [filter] of line 366. *)
Definition is_complete (p : ProcessInput) : Prop :=
  in_arrival p ≠ None ∧ in_burst p ≠ None.

#[global] Instance is_complete_dec p : Decision (is_complete p).
Proof. unfold is_complete. apply _. Defined.

(** The predicate of the [some] of line 374, on a complete row. *)
Definition is_out_of_range (p : ProcessInput) : Prop :=
  match in_arrival p, in_burst p with
  | Some a, Some b => a < 0 ∨ b ≤ 0 ∨ b > MAX_TIME_UNIT
  | _, _ => False
  end.

#[global] Instance is_out_of_range_dec p : Decision (is_out_of_range p).
Proof. unfold is_out_of_range. destruct (in_arrival p), (in_burst p); apply _. Defined.

(** The [map] of lines 381-385; the casts [as number] are applied to
    complete rows only. *)
Definition to_numeric (p : ProcessInput) : Process :=
  {| pid := in_pid p;
     arrival := default 0 (in_arrival p);
     burst := default 0 (in_burst p) |}.

Definition no_valid_process_message : string :=
  "Please enter valid Arrival and Burst times for at least one process.".

Definition out_of_range_message : string :=
  "Arrival Time must be non-negative, and Burst Time must be positive (max 500).".

Definition unexpected_error_message : string :=
  "An unexpected error occurred during calculation.".

(** [calculateFCFS] (lines 364-397).  The call of [fcfs] sits in a [try]:
    [fcfs] raises when the host cannot build one of its arrays (a
    [RangeError] for a timeline of more units than an array holds).
    Whether it does on a given input depends on the host, and is the
    parameter [fcfs_throws]; the [catch] branch sets the error and leaves
    the results and the chart as they were. *)
Definition calculateFCFS (localeCompare : string → string → Z)
    (fcfs_throws : list Process → bool)
    (st : PageState) : PageState :=
  let validProcesses := filter is_complete (st_processes st) in
  let rejected message :=
    {| st_processes := st_processes st;
       st_results := None;
       st_ganttData := None;
       st_error := message |} in
  if decide (length validProcesses = 0%nat) then
    rejected no_valid_process_message
  else if decide (Exists is_out_of_range validProcesses) then
    rejected out_of_range_message
  else
    let numericProcesses := to_numeric <$> validProcesses in
    if fcfs_throws numericProcesses then
      {| st_processes := st_processes st;
         st_results := st_results st;
         st_ganttData := st_ganttData st;
         st_error := unexpected_error_message |}
    else
      let out := fcfs localeCompare numericProcesses in
      {| st_processes := st_processes st;
         st_results := Some (results out);
         st_ganttData :=
           Some {| gd_ganttBlocks := ganttBlocks out;
                   gd_timeMarkers := timeMarkers out;
                   gd_totalTime := totalTime out |};
         st_error := "" |}.

(** What a user of the page can do: edit the arrival or the burst of a row
    on screen, add a row, remove a row (the button is rendered only when
    there is more than one row, line 474), and calculate. *)
Inductive page_step (localeCompare : string → string → Z)
    (fcfs_throws : list Process → bool)
  : PageState → PageState → Prop :=
  | step_update_arrival i value st st' :
      updateField i FieldArrival value st = Some st' →
      page_step localeCompare fcfs_throws st st'
  | step_update_burst i value st st' :
      updateField i FieldBurst value st = Some st' →
      page_step localeCompare fcfs_throws st st'
  | step_add st :
      page_step localeCompare fcfs_throws st (addProcess st)
  | step_remove i st :
      (1 < length (st_processes st))%nat →
      (i < length (st_processes st))%nat →
      page_step localeCompare fcfs_throws st (removeProcess i st)
  | step_calculate st :
      page_step localeCompare fcfs_throws st
        (calculateFCFS localeCompare fcfs_throws st).

Definition reachable (localeCompare : string → string → Z)
    (fcfs_throws : list Process → bool)
    (st : PageState) : Prop :=
  rtc (page_step localeCompare fcfs_throws) initialPageState st.

(** The ids [P1], ..., [Pn]. *)
Definition numbered_pids (n : nat) : list string :=
  (λ k, pid_of_number (k + 1)) <$> seq 0 n.

(** *** The output component (lines 154-167, 194-222, 519-520) *)

(** The three [reduce] calls behind the averages: the sums that
    [avgW] and [avgT] divide by [results.length]. *)
Definition total_waiting (rs : list ProcessResult) : Z :=
  foldl (λ sum p, sum + waiting p) 0 rs.

Definition total_turnaround (rs : list ProcessResult) : Z :=
  foldl (λ sum p, sum + turnaround p) 0 rs.

(** Width of the bar of a block (lines 206-207). *)
Definition widthPx (block : GanttBlock) : Z :=
  let duration := end_ block - start block in
  duration * 40.

(** Minimal width of the chart (line 200). *)
Definition chart_minWidth (totalTime : Z) : Z := Z.max 400 (totalTime * 40).

(** Position of the tick of a marker (line 228). *)
Definition positionPx (time : Z) : Z := time * 40.

(** [pid.replace('P', '')]: the first ['P'] is removed. *)
Fixpoint remove_first_P (s : string) : string :=
  match s with
  | EmptyString => EmptyString
  | String c rest =>
      if decide (c = "P"%char) then rest else String c (remove_first_P rest)
  end.

Definition idle_style : string :=
  "bg-gray-700 text-gray-400 border border-dashed border-gray-600".

(** Lines 159-166: the [switch] on [index]; [None] is [NaN], which matches
    no [case]. *)
Definition style_of_index (index : option Z) : string :=
  match index with
  | Some 1 => "bg-blue-600 text-white shadow-sm shadow-blue-900"
  | Some 2 => "bg-green-600 text-white shadow-sm shadow-green-900"
  | Some 3 => "bg-purple-600 text-white shadow-sm shadow-purple-900"
  | Some 4 => "bg-yellow-500 text-gray-900 shadow-sm shadow-yellow-900"
  | Some 5 => "bg-pink-600 text-white shadow-sm shadow-pink-900"
  | _ => "bg-teal-600 text-white shadow-sm shadow-teal-900"
  end.

Section ProcessColor.

(** [parseInt] of the host, with [None] for [NaN]. *)
Variable parseInt : string → option Z.

(** [getProcessColor] (lines 154-167); [%] is the remainder that takes
    the sign of the dividend. *)
Definition getProcessColor (pid : string) : string :=
  if decide (pid = IDLE) then idle_style
  else
    let index := (λ n, Z.rem n 6) <$> parseInt (remove_first_P pid) in
    style_of_index index.

End ProcessColor.

(** [parseInt] on the strings the page gives it: the decimal value of a
    non-empty string of digits. *)
Definition parseInt_of_digits (s : string) : option Z :=
  if decide (s = "") then None else digits_value s.

(** *** Vocabulary for the properties of the page *)

Definition sum_bursts (ps : list Process) : Z :=
  foldr (λ p acc, burst p + acc) 0 ps.

Definition max_arrival (ps : list Process) : Z :=
  foldr (λ p acc, Z.max (arrival p) acc) 0 ps.

(** Total width of a row of bars, which the flex container lays out one
    after the other. *)
Definition bars_width (bs : list GanttBlock) : Z :=
  foldr (λ b acc, widthPx b + acc) 0 bs.

(** The state of a page a user can reach: the rows are numbered [P1] to
    [Pn], there is at least one, and every number stored is not
    negative. *)
Definition page_invariant (st : PageState) : Prop :=
  in_pid <$> st_processes st = numbered_pids (length (st_processes st)) ∧
  (1 ≤ length (st_processes st))%nat ∧
  Forall (λ p, (∀ a, in_arrival p = Some a → 0 ≤ a) ∧
               (∀ b, in_burst p = Some b → 0 ≤ b)) (st_processes st).

(** The initial page after the user typed 0 and 5 in the first row. *)
Definition edited_page : PageState :=
  {| st_processes :=
       [ mkProcessInput "P1" (Some 0) (Some 5);
         mkProcessInput "P2" None None;
         mkProcessInput "P3" None None;
         mkProcessInput "P4" None None;
         mkProcessInput "P5" None None ];
     st_results := None;
     st_ganttData := None;
     st_error := "" |}.

(** A host on which [fcfs] raises when its timeline could have more
    units than the longest array, 2^32 - 1. *)
Definition exceeds_array_length (ps : list Process) : bool :=
  bool_decide (4294967295 < max_arrival ps + sum_bursts ps).

(** A page that shows the results of an earlier calculation and whose only
    row now arrives too late for the timeline to be built. *)
Definition overlong_page : PageState :=
  {| st_processes := [ mkProcessInput "P1" (Some 5000000000) (Some 1) ];
     st_results := Some [ mkProcessResult "P1" 0 5 5 5 0 ];
     st_ganttData :=
       Some {| gd_ganttBlocks := [ mkGanttBlock "P1" 0 5 ];
               gd_timeMarkers := [0; 5];
               gd_totalTime := 5 |};
     st_error := "" |}.

(** A page state on which [calculateFCFS] succeeds. *)
Definition sample_page : PageState :=
  {| st_processes :=
       [ mkProcessInput "P1" (Some 0) (Some 4);
         mkProcessInput "P2" None (Some 3);
         mkProcessInput "P3" (Some 2) (Some 2) ];
     st_results := None;
     st_ganttData := None;
     st_error := "" |}.

(** ** Vocabulary of the specification *)

(** The process a result entry was computed for. *)
Definition result_process (r : ProcessResult) : Process :=
  {| pid := res_pid r; arrival := res_arrival r; burst := res_burst r |}.

(** The order of the specification: arrival ascending, ties broken by id
    in lexicographic order ([String.le] compares code units). *)
Definition arrival_then_pid (a b : Process) : Prop :=
  arrival a < arrival b ∨ (arrival a = arrival b ∧ (pid a ≤ pid b)%string).

(** Two processes with the same sort key. *)
Definition same_key (k p : Process) : Prop :=
  arrival p = arrival k ∧ pid p = pid k.

#[global] Instance same_key_dec k p : Decision (same_key k p).
Proof. unfold same_key. apply _. Defined.

(** The collation of the host agrees with the lexicographic order on the
    given ids. *)
Definition collates_lexicographically
    (localeCompare : string → string → Z) (ids : list string) : Prop :=
  ∀ a b, a ∈ ids → b ∈ ids → (localeCompare a b ?= 0) = String.compare a b.

(** The order the code sorts by: arrival ascending, ties broken by the
    collation of the host. *)
Definition arrival_then_collation
    (localeCompare : string → string → Z) (a b : Process) : Prop :=
  arrival a < arrival b ∨
  (arrival a = arrival b ∧ localeCompare (pid a) (pid b) ≤ 0).

(** Two processes that the comparator of the sort does not tell apart. *)
Definition same_rank
    (localeCompare : string → string → Z) (k p : Process) : Prop :=
  arrival p = arrival k ∧ localeCompare (pid p) (pid k) = 0.

#[global] Instance same_rank_dec localeCompare k p :
  Decision (same_rank localeCompare k p).
Proof. unfold same_rank. apply _. Defined.

(** What ECMAScript requires of [localeCompare]: a consistent comparison,
    that is a total preorder on strings read off the sign of the result. *)
Record consistent_collation (localeCompare : string → string → Z) : Prop := {
  collation_refl : ∀ a, localeCompare a a = 0;
  collation_antisym : ∀ a b, localeCompare a b > 0 ↔ localeCompare b a < 0;
  collation_trans : ∀ a b c,
    localeCompare a b ≤ 0 → localeCompare b c ≤ 0 → localeCompare a c ≤ 0
}.

(** The reading of the ordering claim as it is worded: the results are
    the stable sort of the input by arrival and then by id in
    lexicographic order. *)
Definition results_in_lexicographic_order
    (localeCompare : string → string → Z) (ps : list Process) : Prop :=
  let order := result_process <$> results (fcfs localeCompare ps) in
  order ≡ₚ ps ∧
  StronglySorted arrival_then_pid order ∧
  (∀ k, filter (same_key k) order = filter (same_key k) ps).

(** ASCII lower case. *)
Definition to_lower (c : ascii) : ascii :=
  let n := nat_of_ascii c in
  if (65 <=? n)%nat && (n <=? 90)%nat then ascii_of_nat (n + 32) else c.

Fixpoint lowercase (s : string) : string :=
  match s with
  | EmptyString => EmptyString
  | String c rest => String (to_lower c) (lowercase rest)
  end.

(** A model of the default collation of the hosts of the page on ASCII
    letters and digits: strings are compared without regard to case, and
    when that ties the one with the lower-case letter at the first
    difference comes first. *)
Definition lowercaseFirstCompare (a b : string) : Z :=
  match String.compare (lowercase a) (lowercase b) with
  | Lt => -1
  | Gt => 1
  | Eq => match String.compare a b with
          | Lt => 1
          | Eq => 0
          | Gt => -1
          end
  end.

(** Two processes that arrive together and whose ids differ in case. *)
Definition case_mix_input : list Process :=
  [ mkProcess "P1" 0 1; mkProcess "p1" 0 1 ].

(** Well-formed input: what the caller validates before it calls [fcfs]. *)
Definition well_formed (ps : list Process) : Prop :=
  Forall (λ p, 0 ≤ arrival p ∧ 0 < burst p) ps.

(** The specification's reading of the simulation pass: the start time is
    [max clock arrival], the completion is the start time plus the burst,
    and the clock advances to the completion. *)
Definition start_time (clock : Z) (p : Process) : Z := Z.max clock (arrival p).

Definition schedule_entry (clock : Z) (p : Process) : ProcessResult :=
  let c := start_time clock p + burst p in
  {| res_pid := pid p; res_arrival := arrival p; res_burst := burst p;
     completion := c;
     turnaround := c - arrival p;
     waiting := (c - arrival p) - burst p |}.

Fixpoint schedule_from (clock : Z) (procs : list Process) : list ProcessResult :=
  match procs with
  | [] => []
  | p :: rest =>
      schedule_entry clock p :: schedule_from (start_time clock p + burst p) rest
  end.

Fixpoint timeline_from (clock : Z) (procs : list Process) : list string :=
  match procs with
  | [] => []
  | p :: rest =>
      replicate (Z.to_nat (arrival p - clock)) IDLE ++
      replicate (Z.to_nat (burst p)) (pid p) ++
      timeline_from (start_time clock p + burst p) rest
  end.

Fixpoint clock_after (clock : Z) (procs : list Process) : Z :=
  match procs with
  | [] => clock
  | p :: rest => clock_after (start_time clock p + burst p) rest
  end.

(** The clock before the [i]-th entry of a results sequence: 0 for the
    first, the completion of the previous entry otherwise. *)
Definition clock_before (rs : list ProcessResult) (i : nat) : Z :=
  match i with
  | O => 0
  | S j => from_option completion 0 (rs !! j)
  end.

(** The compression loop as a recursion on the remaining timeline: [t] is
    the index of its first unit and [blockStart] the start of the run in
    progress. *)
Fixpoint runs_from (blockStart t : nat) (tl : list string) : list GanttBlock :=
  match tl with
  | [] => []
  | cur :: rest =>
      match rest with
      | [] => [ {| process := cur; start := Z.of_nat blockStart;
                   end_ := Z.of_nat (t + 1) |} ]
      | next :: _ =>
          if decide (next = cur) then runs_from blockStart (S t) rest
          else {| process := cur; start := Z.of_nat blockStart;
                  end_ := Z.of_nat (t + 1) |} :: runs_from (S t) (S t) rest
      end
  end.

(** A list of labels with its adjacent repetitions removed. *)
Fixpoint squash (tl : list string) : list string :=
  match tl with
  | [] => []
  | cur :: rest =>
      match rest with
      | [] => [cur]
      | next :: _ => if decide (next = cur) then squash rest else cur :: squash rest
      end
  end.

(** [chained a bs e]: the blocks [bs], in order, are non-empty intervals
    that tile [a, e) without gap or overlap. *)
Inductive chained : Z → list GanttBlock → Z → Prop :=
  | chained_nil a : chained a [] a
  | chained_cons b bs e :
      start b < end_ b → chained (end_ b) bs e → chained (start b) (b :: bs) e.

(** Sum of the durations of a list of blocks. *)
Definition total_duration (bs : list GanttBlock) : Z :=
  foldr (λ b acc, (end_ b - start b) + acc) 0 bs.

(** Number of blocks that carry a given label. *)
Definition blocks_of (label : string) (bs : list GanttBlock) : nat :=
  length (filter (λ b, process b = label) bs).

(** Number of occurrences of a label in a list of labels. *)
Definition occurrences (label : string) (l : list string) : nat :=
  length (filter (λ x, x = label) l).

(** The store holds the process [p] at [l]. *)
Definition points_to (h : heap) (l : loc) (p : Process) : Prop :=
  h !! l = Some (ObjProcess p).

(** The store holds at [arr] an array of references to the processes [ps]. *)
Definition holds_array (h : heap) (arr : loc) (ps : list Process) : Prop :=
  ∃ elems, h !! arr = Some (ArrayOfRefs elems) ∧ Forall2 (points_to h) elems ps.

(** The reading of the waiting-time guarantee under which only the first
    process, started at time 0, can have a waiting time of 0. *)
Definition waiting_zero_only_first
    (localeCompare : string → string → Z) (ps : list Process) : Prop :=
  ∀ i r, results (fcfs localeCompare ps) !! i = Some r →
    (waiting r = 0 → i = 0%nat ∧ completion r - res_burst r = 0) ∧
    (¬ (i = 0%nat ∧ completion r - res_burst r = 0) → waiting r > 0).

(** Every process of the input labels exactly one block of the timeline. *)
Definition one_block_per_process
    (localeCompare : string → string → Z) (ps : list Process) : Prop :=
  ∀ p, p ∈ ps → blocks_of (pid p) (ganttBlocks (fcfs localeCompare ps)) = 1%nat.

(** The result of [fcfs] on an empty array. *)
Definition empty_output : FcfsOutput :=
  {| ganttBlocks := []; timeMarkers := []; totalTime := 0; results := [] |}.

(** ** Sample inputs *)

(** Scenario 3 of the specification: a tie on the arrival time. *)
Definition tie_break_input : list Process :=
  [ mkProcess "P2" 0 2; mkProcess "P1" 0 3 ].

(** Scenario 4 of the specification: the second process has to wait. *)
Definition back_to_back_input : list Process :=
  [ mkProcess "P1" 0 4; mkProcess "P2" 2 2 ].

(** Both processes start on arrival, each after an idle interval. *)
Definition late_arrivals_input : list Process :=
  [ mkProcess "P1" 2 3; mkProcess "P2" 9 1 ].

(** Distinct ids, one of which is the idle label. *)
Definition idle_named_input : list Process :=
  [ mkProcess "IDLE" 0 1; mkProcess "P2" 1 1; mkProcess "P3" 5 1 ].

(** A store that holds [tie_break_input] at location 0. *)
Definition tie_break_store : heap :=
  {[ 0%nat := ArrayOfRefs [1%nat; 2%nat];
     1%nat := ObjProcess (mkProcess "P2" 0 2);
     2%nat := ObjProcess (mkProcess "P1" 0 3) ]}.

(** A store that holds an empty array at location 0. *)
Definition empty_array_store : heap := {[ 0%nat := ArrayOfRefs [] ]}.

(** * Properties *)

(** ** Sorting *)

Section SortFacts.
Context {A : Type} (cmp : A → A → Z).

Lemma sort_insert_perm x l : sort_insert cmp x l ≡ₚ x :: l.
Proof.
  induction l as [|y ys IH]; simpl; [done|].
  case_bool_decide; [|done].
  rewrite IH. apply Permutation_swap.
Qed.

Lemma Array_sort_perm l : Array_sort cmp l ≡ₚ l.
Proof.
  induction l as [|x l IH]; simpl; [done|].
  unfold Array_sort in *. simpl. by rewrite sort_insert_perm, IH.
Qed.

Lemma Array_sort_length l : length (Array_sort cmp l) = length l.
Proof. by rewrite Array_sort_perm. Qed.

Lemma Array_sort_elem_of x l : x ∈ Array_sort cmp l ↔ x ∈ l.
Proof. by rewrite Array_sort_perm. Qed.

(** Insertion keeps a list sorted for any transitive relation the
    comparator decides on the elements at hand. *)
Lemma sort_insert_sorted (le : relation A) `{!Transitive le} x l :
  (∀ y, y ∈ l → cmp x y > 0 → le y x) →
  (∀ y, y ∈ l → ¬ cmp x y > 0 → le x y) →
  StronglySorted le l →
  StronglySorted le (sort_insert cmp x l).
Proof.
  intros Hgt Hle. induction 1 as [|y ys Hs IH Hall]; simpl.
  { repeat constructor. }
  case_bool_decide as Hc.
  - constructor.
    + apply IH; intros z Hz; [apply Hgt|apply Hle]; by right.
    + rewrite sort_insert_perm. constructor; [|done].
      apply Hgt; [by left|done].
  - assert (le x y) as Hxy by (apply Hle; [by left|done]).
    constructor; [by constructor|].
    constructor; [done|].
    eapply Forall_impl; [exact Hall|]. intros z Hz. by etrans.
Qed.

Lemma Array_sort_sorted (le : relation A) `{!Transitive le} l :
  (∀ x y, x ∈ l → y ∈ l → cmp x y > 0 → le y x) →
  (∀ x y, x ∈ l → y ∈ l → ¬ cmp x y > 0 → le x y) →
  StronglySorted le (Array_sort cmp l).
Proof.
  induction l as [|x l IH]; intros Hgt Hle; [constructor|].
  change (Array_sort cmp (x :: l)) with (sort_insert cmp x (Array_sort cmp l)).
  apply sort_insert_sorted; [done|..].
  - intros y Hy. apply Hgt; [by left|]. right. by apply Array_sort_elem_of.
  - intros y Hy. apply Hle; [by left|]. right. by apply Array_sort_elem_of.
  - apply IH; intros y z Hy Hz; [apply Hgt|apply Hle]; by right.
Qed.

(** Stability: insertion does not move [x] past an element it does not
    compare greater than. *)
Lemma sort_insert_filter (P : A → Prop) `{!∀ a, Decision (P a)} x l :
  (∀ y, y ∈ l → P x → P y → ¬ cmp x y > 0) →
  filter P (sort_insert cmp x l) = filter P (x :: l).
Proof.
  induction l as [|y ys IH]; intros Hst; simpl; [done|].
  case_bool_decide as Hc; [|done].
  rewrite (filter_cons _ y), IH by (intros z Hz; apply Hst; by right).
  rewrite !filter_cons.
  destruct (decide (P x)) as [Hx|Hx], (decide (P y)) as [Hy|Hy]; try done.
  exfalso. by apply (Hst y); [left|..].
Qed.

Lemma Array_sort_filter (P : A → Prop) `{!∀ a, Decision (P a)} l :
  (∀ x y, x ∈ l → y ∈ l → P x → P y → ¬ cmp x y > 0) →
  filter P (Array_sort cmp l) = filter P l.
Proof.
  induction l as [|x l IH]; intros Hst; [done|].
  change (Array_sort cmp (x :: l)) with (sort_insert cmp x (Array_sort cmp l)).
  rewrite sort_insert_filter.
  - rewrite !filter_cons, IH; [done|].
    intros y z Hy Hz. apply Hst; by right.
  - intros y Hy. apply Hst; [by left|]. right. by apply Array_sort_elem_of.
Qed.

(** Sorting through a projection. *)
Lemma Array_sort_fmap {B} (f : B → A) (l : list B) :
  f <$> Array_sort (λ a b, cmp (f a) (f b)) l = Array_sort cmp (f <$> l).
Proof.
  induction l as [|x l IH]; [done|].
  change (Array_sort cmp (f <$> x :: l))
    with (sort_insert cmp (f x) (Array_sort cmp (f <$> l))).
  change (Array_sort (λ a b, cmp (f a) (f b)) (x :: l))
    with (sort_insert (λ a b, cmp (f a) (f b)) x
            (Array_sort (λ a b, cmp (f a) (f b)) l)).
  rewrite <- IH. generalize (Array_sort (λ a b, cmp (f a) (f b)) l).
  intros l'. induction l' as [|y ys IH']; csimpl; [done|].
  case_bool_decide; csimpl; [by rewrite IH'|done].
Qed.
End SortFacts.

Lemma spread_id p : spread p = p.
Proof. by destruct p. Qed.

Lemma fmap_spread (ps : list Process) : spread <$> ps = ps.
Proof. induction ps as [|p ps IH]; csimpl; [done|]. by rewrite spread_id, IH. Qed.

#[global] Instance arrival_then_pid_trans : Transitive arrival_then_pid.
Proof.
  intros a b c [Hab|[Hab Hab']] [Hbc|[Hbc Hbc']]; unfold arrival_then_pid.
  - left. lia.
  - left. lia.
  - left. lia.
  - right. split; [lia|]. by etrans.
Qed.

(** ** Simulation *)

Lemma fcfs_step_spec st p :
  fcfs_step st p =
  {| time := start_time (time st) p + burst p;
     done := done st ++ [schedule_entry (time st) p];
     uncompressedTimeline :=
       uncompressedTimeline st ++
       replicate (Z.to_nat (arrival p - time st)) IDLE ++
       replicate (Z.to_nat (burst p)) (pid p) |}.
Proof.
  unfold fcfs_step, schedule_entry, start_time.
  case_bool_decide as Hidle.
  - by rewrite Z.max_r by lia.
  - rewrite Z.max_l by lia.
    by replace (Z.to_nat (arrival p - time st)) with 0%nat by lia.
Qed.

Lemma foldl_fcfs_step st procs :
  foldl fcfs_step st procs =
  {| time := clock_after (time st) procs;
     done := done st ++ schedule_from (time st) procs;
     uncompressedTimeline :=
       uncompressedTimeline st ++ timeline_from (time st) procs |}.
Proof.
  revert st. induction procs as [|p rest IH]; intros st; simpl.
  - rewrite !app_nil_r. by destruct st.
  - rewrite IH, fcfs_step_spec. simpl. f_equal.
    + by rewrite <- app_assoc.
    + by rewrite <- !app_assoc.
Qed.

Lemma simulate_spec procs :
  simulate procs =
  {| time := clock_after 0 procs;
     done := schedule_from 0 procs;
     uncompressedTimeline := timeline_from 0 procs |}.
Proof. unfold simulate. by rewrite foldl_fcfs_step. Qed.

Lemma schedule_from_length c procs :
  length (schedule_from c procs) = length procs.
Proof. revert c. induction procs; intros; simpl; [done|]. by rewrite IHprocs. Qed.

Lemma schedule_from_processes c procs :
  result_process <$> schedule_from c procs = procs.
Proof.
  revert c. induction procs as [|p rest IH]; intros c; csimpl; [done|].
  rewrite IH. by destruct p.
Qed.

(** ** The comparator and the order of the specification *)

Section Comparator.
Variable localeCompare : string → string → Z.
Variable ids : list string.
Hypothesis collation : collates_lexicographically localeCompare ids.

Lemma compareProcs_gt x y :
  pid x ∈ ids → pid y ∈ ids →
  compareProcs localeCompare x y > 0 → arrival_then_pid y x.
Proof.
  intros Hx Hy. unfold compareProcs, arrival_then_pid. simpl.
  case_decide as Hd; [|lia].
  intros Hc. right. split; [lia|].
  pose proof (collation _ _ Hx Hy) as Hl.
  assert ((localeCompare (pid x) (pid y) ?= 0) = Gt) as Hgt
    by (apply Z.compare_gt_iff; lia).
  rewrite Hgt in Hl. unfold String.le, String.leb.
  rewrite String.compare_antisym, <- Hl. done.
Qed.

Lemma compareProcs_le x y :
  pid x ∈ ids → pid y ∈ ids →
  ¬ compareProcs localeCompare x y > 0 → arrival_then_pid x y.
Proof.
  intros Hx Hy. unfold compareProcs, arrival_then_pid. simpl.
  case_decide as Hd; [|lia].
  intros Hc. right. split; [lia|].
  pose proof (collation _ _ Hx Hy) as Hl.
  unfold String.le, String.leb. rewrite <- Hl.
  destruct (Z.compare_spec (localeCompare (pid x) (pid y)) 0); [done|done|lia].
Qed.

Lemma compareProcs_same_key k x y :
  pid x ∈ ids → same_key k x → same_key k y →
  ¬ compareProcs localeCompare x y > 0.
Proof.
  intros Hx [Ha Hp] [Ha' Hp']. unfold compareProcs. simpl.
  rewrite decide_True by lia. rewrite Hp', <- Hp.
  pose proof (collation _ _ Hx Hx) as Hl.
  assert (String.compare (pid x) (pid x) = Eq) as Heq.
  { destruct (String.compare (pid x) (pid x)) eqn:E; [done|..];
      pose proof (String.compare_antisym (pid x) (pid x)) as Hanti;
      rewrite E in Hanti; discriminate. }
  rewrite Heq in Hl. apply Z.compare_eq_iff in Hl. lia.
Qed.
End Comparator.

Lemma arrival_then_pid_antisym a b :
  arrival_then_pid a b → arrival_then_pid b a → same_key a b.
Proof.
  intros [?|[? Hab]] [?|[? Hba]]; try lia.
  split; [lia|]. by apply (anti_symm String.le).
Qed.

(** A list sorted by [arrival_then_pid] is determined by the sub-lists of
    its elements of equal key: the stable sort of a list is unique. *)
Lemma stable_sorted_unique (l1 l2 : list Process) :
  StronglySorted arrival_then_pid l1 →
  StronglySorted arrival_then_pid l2 →
  (∀ k, filter (same_key k) l1 = filter (same_key k) l2) →
  l1 = l2.
Proof.
  intros Hs1. revert l2. induction Hs1 as [|a l1 Hs1 IH Ha]; intros l2 Hs2 Hf.
  - destruct l2 as [|b l2]; [done|].
    specialize (Hf b). rewrite filter_nil, filter_cons_True in Hf; done.
  - destruct Hs2 as [|b l2 Hs2 Hb].
    { specialize (Hf a). rewrite filter_nil, filter_cons_True in Hf; done. }
    assert (a ∈ b :: l2) as Ha2.
    { apply (list_elem_of_filter (same_key a)). rewrite <- Hf.
      rewrite filter_cons_True by done. by left. }
    assert (b ∈ a :: l1) as Hb1.
    { apply (list_elem_of_filter (same_key b)). rewrite Hf.
      rewrite filter_cons_True by done. by left. }
    assert (same_key a b) as Hk.
    { apply elem_of_cons in Ha2 as [->|Ha2]; [done|].
      apply elem_of_cons in Hb1 as [->|Hb1]; [done|].
      rewrite Forall_forall in Ha, Hb.
      apply arrival_then_pid_antisym; auto. }
    assert (a = b) as <-.
    { specialize (Hf a). rewrite !filter_cons_True in Hf by done. congruence. }
    f_equal. apply IH; [done|]. intros k. specialize (Hf k).
    rewrite !filter_cons in Hf. destruct (decide (same_key k a)); congruence.
Qed.

(** ** Sorting by a consistent collation *)

(** A sorted list is determined by its sub-lists of elements that the
    order does not tell apart. *)
Section StableUnique.
Context {A : Type} (le : relation A) (E : A → A → Prop).
Context `{!∀ a b, Decision (E a b)}.
Hypothesis E_refl : ∀ a, E a a.
Hypothesis le_antisym : ∀ a b, le a b → le b a → E a b.

Lemma stable_sorted_unique_up_to (l1 l2 : list A) :
  StronglySorted le l1 →
  StronglySorted le l2 →
  (∀ k, filter (E k) l1 = filter (E k) l2) →
  l1 = l2.
Proof.
  intros Hs1. revert l2. induction Hs1 as [|a l1 Hs1 IH Ha]; intros l2 Hs2 Hf.
  - destruct l2 as [|b l2]; [done|].
    specialize (Hf b). rewrite filter_nil, filter_cons_True in Hf; done.
  - destruct Hs2 as [|b l2 Hs2 Hb].
    { specialize (Hf a). rewrite filter_nil, filter_cons_True in Hf; done. }
    assert (a ∈ b :: l2) as Ha2.
    { apply (list_elem_of_filter (E a)). rewrite <- Hf.
      rewrite filter_cons_True by done. by left. }
    assert (b ∈ a :: l1) as Hb1.
    { apply (list_elem_of_filter (E b)). rewrite Hf.
      rewrite filter_cons_True by done. by left. }
    assert (E a b) as Hk.
    { apply elem_of_cons in Ha2 as [->|Ha2]; [done|].
      apply elem_of_cons in Hb1 as [->|Hb1]; [done|].
      rewrite Forall_forall in Ha, Hb. apply le_antisym; auto. }
    assert (a = b) as <-.
    { specialize (Hf a). rewrite !filter_cons_True in Hf by done. congruence. }
    f_equal. apply IH; [done|]. intros k. specialize (Hf k).
    rewrite !filter_cons in Hf. destruct (decide (E k a)); congruence.
Qed.
End StableUnique.

Section ConsistentCollation.
Variable localeCompare : string → string → Z.
Hypothesis consistent : consistent_collation localeCompare.

Lemma collation_zero_sym a b :
  localeCompare a b = 0 → localeCompare b a = 0.
Proof.
  intros Hab.
  pose proof (collation_antisym _ consistent a b) as H1.
  pose proof (collation_antisym _ consistent b a) as H2. lia.
Qed.

#[local] Instance arrival_then_collation_trans :
  Transitive (arrival_then_collation localeCompare).
Proof.
  intros a b c [Hab|[Hab Hab']] [Hbc|[Hbc Hbc']]; unfold arrival_then_collation.
  - left. lia.
  - left. lia.
  - left. lia.
  - right. split; [lia|]. by eapply (collation_trans _ consistent).
Qed.

Lemma arrival_then_collation_antisym a b :
  arrival_then_collation localeCompare a b →
  arrival_then_collation localeCompare b a →
  same_rank localeCompare a b.
Proof.
  intros [?|[? Hab]] [?|[? Hba]]; try lia.
  split; [lia|].
  pose proof (collation_antisym _ consistent (pid a) (pid b)). lia.
Qed.

Lemma compareProcs_consistent_gt x y :
  compareProcs localeCompare x y > 0 → arrival_then_collation localeCompare y x.
Proof.
  unfold compareProcs, arrival_then_collation. simpl.
  case_decide as Hd; [|lia]. intros Hc. right. split; [lia|].
  pose proof (collation_antisym _ consistent (pid x) (pid y)). lia.
Qed.

Lemma compareProcs_consistent_le x y :
  ¬ compareProcs localeCompare x y > 0 → arrival_then_collation localeCompare x y.
Proof.
  unfold compareProcs, arrival_then_collation. simpl.
  case_decide as Hd; lia.
Qed.

Lemma compareProcs_same_rank k x y :
  same_rank localeCompare k x → same_rank localeCompare k y →
  ¬ compareProcs localeCompare x y > 0.
Proof.
  intros [Ha Hx] [Ha' Hy]. unfold compareProcs. simpl.
  rewrite decide_True by lia.
  apply collation_zero_sym in Hy.
  pose proof (collation_trans _ consistent (pid x) (pid k) (pid y)). lia.
Qed.

(** The sort of line 77 under a consistent collation. *)
Lemma Array_sort_compareProcs ps :
  let order := Array_sort (compareProcs localeCompare) ps in
  order ≡ₚ ps ∧
  StronglySorted (arrival_then_collation localeCompare) order ∧
  (∀ k, filter (same_rank localeCompare k) order
        = filter (same_rank localeCompare k) ps) ∧
  (∀ l, StronglySorted (arrival_then_collation localeCompare) l →
        (∀ k, filter (same_rank localeCompare k) l
              = filter (same_rank localeCompare k) ps) →
        l = order).
Proof.
  intros order.
  assert (StronglySorted (arrival_then_collation localeCompare) order) as Hsorted.
  { apply Array_sort_sorted; [apply _|..]; intros x y _ _.
    - apply compareProcs_consistent_gt.
    - apply compareProcs_consistent_le. }
  assert (∀ k, filter (same_rank localeCompare k) order
               = filter (same_rank localeCompare k) ps) as Hstable.
  { intros k. apply Array_sort_filter. intros x y _ _.
    apply compareProcs_same_rank. }
  split_and!; [apply Array_sort_perm|done..|].
  intros l Hl Hf.
  apply (stable_sorted_unique_up_to (arrival_then_collation localeCompare)
           (same_rank localeCompare)); [| |done..|].
  - intros a. split; [done|]. apply (collation_refl _ consistent).
  - apply arrival_then_collation_antisym.
  - intros k. by rewrite Hf, Hstable.
Qed.
End ConsistentCollation.

Lemma String_compare_refl s : String.compare s s = Eq.
Proof.
  destruct (String.compare s s) eqn:E; [done|..];
    pose proof (String.compare_antisym s s) as Hanti;
    rewrite E in Hanti; discriminate.
Qed.

Lemma codeUnitCompare_le a b : codeUnitCompare a b ≤ 0 ↔ (a ≤ b)%string.
Proof.
  unfold codeUnitCompare, String.le, String.leb.
  destruct (String.compare a b); simpl; split; (done || lia).
Qed.

(** The code-unit order is a consistent collation. *)
Lemma codeUnitCompare_consistent : consistent_collation codeUnitCompare.
Proof.
  split.
  - intros a. unfold codeUnitCompare. by rewrite String_compare_refl.
  - intros a b. unfold codeUnitCompare. rewrite (String.compare_antisym b a).
    destruct (String.compare a b); simpl; lia.
  - intros a b c. rewrite !codeUnitCompare_le. apply transitivity.
Qed.

(** ** Compression *)

(** One iteration of the loop, at the unit [cur] that follows [pre]. *)
Lemma compress_step_middle pre cur rest st :
  compress_step (pre ++ cur :: rest) st (length pre) =
  let pushed :=
    {| blockStart := S (length pre);
       blocks := blocks st ++
         [ {| process := cur; start := Z.of_nat (blockStart st);
              end_ := Z.of_nat (length pre + 1) |} ] |} in
  match rest with
  | [] => pushed
  | next :: _ => if decide (next = cur) then st else pushed
  end.
Proof.
  unfold compress_step.
  rewrite list_lookup_middle by done.
  replace (pre ++ cur :: rest) with ((pre ++ [cur]) ++ rest)
    by (by rewrite <- app_assoc).
  rewrite lookup_app_r by (rewrite length_app; simpl; lia).
  replace (length pre + 1 - length (pre ++ [cur]))%nat with 0%nat
    by (rewrite length_app; simpl; lia).
  rewrite !length_app. cbn [length].
  replace (length pre + 1)%nat with (S (length pre)) by lia.
  destruct rest as [|next rest']; cbn [length lookup list_lookup].
  - rewrite bool_decide_true by lia. done.
  - rewrite bool_decide_false by lia. cbn [orb].
    destruct (decide (next = cur)) as [->|Hne].
    + rewrite bool_decide_false by (intros H; by apply H). done.
    + rewrite bool_decide_true by congruence. done.
Qed.

(** The loop over indices computes [runs_from]. *)
Lemma foldl_compress_step pre suf st :
  blocks (foldl (compress_step (pre ++ suf)) st (seq (length pre) (length suf)))
  = blocks st ++ runs_from (blockStart st) (length pre) suf.
Proof.
  revert pre st. induction suf as [|cur rest IH]; intros pre st.
  { simpl. by rewrite app_nil_r. }
  cbn [length seq foldl].
  rewrite compress_step_middle.
  replace (pre ++ cur :: rest) with ((pre ++ [cur]) ++ rest)
    by (by rewrite <- app_assoc).
  replace (S (length pre)) with (length (pre ++ [cur]))
    by (rewrite length_app; simpl; lia).
  rewrite IH. clear IH.
  replace (length (pre ++ [cur])) with (S (length pre))
    by (rewrite length_app; simpl; lia).
  destruct rest as [|next rest'].
  - simpl. by rewrite app_nil_r.
  - cbn [runs_from]. fold (runs_from (blockStart st) (S (length pre)) (next :: rest')).
    destruct (decide (next = cur)) as [->|Hne]; [done|].
    cbn [blocks blockStart]. by rewrite <- app_assoc.
Qed.

Lemma compress_runs tl : compress tl = runs_from 0 0 tl.
Proof. unfold compress. by rewrite (foldl_compress_step [] tl). Qed.

Lemma runs_from_cons_cons bs t cur next rest :
  runs_from bs t (cur :: next :: rest) =
  if decide (next = cur) then runs_from bs (S t) (next :: rest)
  else {| process := cur; start := Z.of_nat bs; end_ := Z.of_nat (t + 1) |}
       :: runs_from (S t) (S t) (next :: rest).
Proof. done. Qed.

Lemma squash_cons_cons cur next rest :
  squash (cur :: next :: rest) =
  if decide (next = cur) then squash (next :: rest)
  else cur :: squash (next :: rest).
Proof. done. Qed.

(** The runs of a non-empty timeline tile the time from the start of the
    run in progress to the end of the timeline. *)
Lemma runs_from_chained bs t cur rest :
  (bs ≤ t)%nat →
  chained (Z.of_nat bs) (runs_from bs t (cur :: rest))
          (Z.of_nat (t + length (cur :: rest))).
Proof.
  revert bs t cur. induction rest as [|next rest IH]; intros bs t cur Hle.
  - cbn [runs_from length].
    apply (chained_cons (mkGanttBlock cur (Z.of_nat bs) (Z.of_nat (t + 1)))).
    + cbn [start end_]. lia.
    + cbn [start end_]. constructor.
  - rewrite runs_from_cons_cons.
    replace (t + length (cur :: next :: rest))%nat
      with (S t + length (next :: rest))%nat by (cbn [length]; lia).
    destruct (decide (next = cur)) as [->|Hne].
    + apply IH. lia.
    + apply (chained_cons (mkGanttBlock cur (Z.of_nat bs) (Z.of_nat (t + 1)))).
      * cbn [start end_]. lia.
      * cbn [start end_]. replace (t + 1)%nat with (S t) by lia. apply IH. lia.
Qed.

Lemma runs_from_labels bs t tl : process <$> runs_from bs t tl = squash tl.
Proof.
  revert bs t. induction tl as [|cur rest IH]; intros bs t; [done|].
  destruct rest as [|next rest]; [done|].
  rewrite runs_from_cons_cons, squash_cons_cons.
  destruct (decide (next = cur)); [apply IH|].
  rewrite fmap_cons. cbn [process]. f_equal. apply IH.
Qed.

(** *** Facts about [chained] *)

Lemma chained_le a bs e : chained a bs e → a ≤ e.
Proof. induction 1; lia. Qed.

Lemma chained_head a b bs e : chained a (b :: bs) e → start b = a.
Proof. by inversion 1. Qed.

Lemma chained_adjacent a bs e i b b' :
  chained a bs e → bs !! i = Some b → bs !! S i = Some b' → end_ b = start b'.
Proof.
  intros Hc. revert i. induction Hc as [|b0 bs e Hlt Hc IH]; intros i Hi Hi'.
  { done. }
  destruct i as [|i]; simpl in *.
  - injection Hi as ->. destruct bs as [|b1 bs]; [done|].
    simpl in Hi'. injection Hi' as ->. symmetry. by eapply chained_head.
  - by eapply IH.
Qed.

Lemma chained_duration a bs e : chained a bs e → total_duration bs = e - a.
Proof. induction 1 as [|b bs e Hlt Hc IH]; simpl; [lia|]. rewrite IH. lia. Qed.

Lemma chained_last a bs e b : chained a bs e → last bs = Some b → end_ b = e.
Proof.
  induction 1 as [|b0 bs e Hlt Hc IH]; [done|].
  destruct bs as [|b1 bs].
  - simpl. intros [= ->]. by inversion Hc.
  - rewrite last_cons_cons. apply IH.
Qed.

Lemma chained_bounds a bs e b :
  chained a bs e → b ∈ bs → a ≤ start b ∧ start b < end_ b ∧ end_ b ≤ e.
Proof.
  induction 1 as [|b0 bs e Hlt Hc IH]; [by intros ?%elem_of_nil|].
  pose proof (chained_le _ _ _ Hc).
  intros [->|Hin]%elem_of_cons; [lia|].
  destruct (IH Hin) as (? & ? & ?). lia.
Qed.

(** *** Facts about [squash] *)

Lemma head_squash tl : head (squash tl) = head tl.
Proof.
  induction tl as [|cur rest IH]; [done|].
  destruct rest as [|next rest]; [done|].
  rewrite squash_cons_cons.
  destruct (decide (next = cur)) as [->|]; [|done].
  by rewrite IH.
Qed.

Lemma squash_adjacent tl i x y :
  squash tl !! i = Some x → squash tl !! S i = Some y → x ≠ y.
Proof.
  revert i. induction tl as [|cur rest IH]; intros i; [done|].
  destruct rest as [|next rest]; [by destruct i|].
  rewrite squash_cons_cons.
  destruct (decide (next = cur)) as [->|Hne]; [apply IH|].
  destruct i as [|i]; [|apply IH].
  change ((cur :: squash (next :: rest)) !! 0%nat) with (Some cur).
  change ((cur :: squash (next :: rest)) !! 1%nat)
    with (squash (next :: rest) !! 0%nat).
  rewrite <- head_lookup, head_squash. cbn [head]. congruence.
Qed.

Lemma squash_elem_of tl x : x ∈ squash tl → x ∈ tl.
Proof.
  induction tl as [|cur rest IH]; [done|].
  destruct rest as [|next rest]; [done|].
  rewrite squash_cons_cons.
  destruct (decide (next = cur)) as [->|Hne].
  - intros ?. right. auto.
  - intros [->|?]%elem_of_cons; [by left|]. right. auto.
Qed.

Lemma squash_cons x tl :
  squash (x :: tl) = if decide (head tl = Some x) then squash tl else x :: squash tl.
Proof.
  destruct tl as [|y tl]; [done|].
  rewrite squash_cons_cons. cbn [head].
  destruct (decide (y = x)) as [->|Hne].
  - by rewrite decide_True.
  - by rewrite decide_False by congruence.
Qed.

Lemma occurrences_squash_replicate_ne q x n tl :
  q ≠ x →
  occurrences q (squash (replicate n x ++ tl)) = occurrences q (squash tl).
Proof.
  intros Hne. induction n as [|n IH]; [done|].
  cbn [replicate app]. rewrite squash_cons.
  case_decide; [done|].
  unfold occurrences in *. by rewrite filter_cons_False by congruence.
Qed.

Lemma occurrences_not_elem_of q (l : list string) : q ∉ l → occurrences q l = 0%nat.
Proof.
  intros Hq. unfold occurrences.
  induction l as [|y l IH]; [done|].
  apply not_elem_of_cons in Hq as [? ?].
  rewrite filter_cons_False by congruence. auto.
Qed.

Lemma occurrences_squash_replicate_self x n tl :
  x ∉ tl → occurrences x (squash (replicate (S n) x ++ tl)) = 1%nat.
Proof.
  intros Hx. induction n as [|n IH].
  - cbn [replicate app]. rewrite squash_cons.
    rewrite decide_False.
    + unfold occurrences. rewrite filter_cons_True by done. simpl. f_equal.
      apply occurrences_not_elem_of. intros ?%squash_elem_of. done.
    + destruct tl as [|y tl]; [done|]. simpl. intros [= ->]. apply Hx. by left.
  - change (replicate (S (S n)) x ++ tl) with (x :: (replicate (S n) x ++ tl)).
    rewrite squash_cons. by rewrite decide_True.
Qed.

(** ** The clock, the results and the timeline *)

Lemma clock_after_app c l1 l2 :
  clock_after c (l1 ++ l2) = clock_after (clock_after c l1) l2.
Proof. revert c. induction l1 as [|p l1 IH]; intros c; simpl; [done|]. apply IH. Qed.

Lemma clock_after_le c procs :
  Forall (λ p, 0 ≤ burst p) procs → c ≤ clock_after c procs.
Proof.
  intros Hb. revert c. induction Hb as [|p rest Hp Hb IH]; intros c; simpl; [lia|].
  specialize (IH (start_time c p + burst p)). unfold start_time in *. lia.
Qed.

Lemma clock_after_take_le c procs i :
  Forall (λ p, 0 ≤ burst p) procs →
  clock_after c (take i procs) ≤ clock_after c procs.
Proof.
  intros Hb. rewrite <- (take_drop i procs) at 2. rewrite clock_after_app.
  apply clock_after_le. by apply Forall_drop.
Qed.

Lemma clock_after_take_S c procs i p :
  procs !! i = Some p →
  clock_after c (take (S i) procs)
  = start_time (clock_after c (take i procs)) p + burst p.
Proof.
  intros Hi. rewrite (take_S_r _ _ _ Hi), clock_after_app. done.
Qed.

Lemma timeline_from_length c procs :
  Forall (λ p, 0 ≤ burst p) procs →
  Z.of_nat (length (timeline_from c procs)) = clock_after c procs - c.
Proof.
  intros Hb. revert c. induction Hb as [|p rest Hp Hb IH]; intros c; simpl; [lia|].
  rewrite !length_app, !length_replicate, !Nat2Z.inj_add, IH.
  unfold start_time. lia.
Qed.

Lemma schedule_from_lookup c procs i :
  schedule_from c procs !! i
  = schedule_entry (clock_after c (take i procs)) <$> procs !! i.
Proof.
  revert c i. induction procs as [|p rest IH]; intros c i; [by destruct i|].
  destruct i as [|i]; [done|]. simpl. apply IH.
Qed.

Lemma schedule_from_completion c procs j r :
  schedule_from c procs !! j = Some r →
  completion r = clock_after c (take (S j) procs).
Proof.
  rewrite schedule_from_lookup. intros Hr.
  destruct (procs !! j) as [p|] eqn:Hp; [|done].
  injection Hr as <-. by rewrite (clock_after_take_S _ _ _ _ Hp).
Qed.

Lemma clock_before_schedule_from procs i :
  (i ≤ length procs)%nat →
  clock_before (schedule_from 0 procs) i = clock_after 0 (take i procs).
Proof.
  destruct i as [|j]; [done|]. intros Hj. simpl.
  destruct (schedule_from 0 procs !! j) as [r|] eqn:Hr.
  - simpl. by apply schedule_from_completion.
  - apply lookup_ge_None in Hr. rewrite schedule_from_length in Hr. lia.
Qed.

Lemma schedule_from_last c procs r :
  last (schedule_from c procs) = Some r → completion r = clock_after c procs.
Proof.
  rewrite last_lookup, schedule_from_length. intros Hr.
  apply schedule_from_completion in Hr. rewrite Hr.
  destruct procs as [|p rest]; [done|].
  f_equal. apply take_ge. simpl. lia.
Qed.

Lemma schedule_from_completion_le c procs r :
  Forall (λ p, 0 ≤ burst p) procs →
  r ∈ schedule_from c procs → completion r ≤ clock_after c procs.
Proof.
  intros Hb [j Hj]%list_elem_of_lookup_1.
  rewrite (schedule_from_completion _ _ _ _ Hj).
  by apply clock_after_take_le.
Qed.

(** Where the units of the [i]-th process lie in the timeline. *)
Lemma timeline_from_lookup c procs i p :
  Forall (λ p, 0 ≤ burst p) procs →
  procs !! i = Some p →
  let clock := clock_after c (take i procs) in
  let startTime := start_time clock p in
  c ≤ clock ∧
  (∀ t, clock ≤ t < startTime →
        timeline_from c procs !! Z.to_nat (t - c) = Some IDLE) ∧
  (∀ t, startTime ≤ t < startTime + burst p →
        timeline_from c procs !! Z.to_nat (t - c) = Some (pid p)).
Proof.
  intros Hb. revert c i. induction Hb as [|q rest Hq Hb IH]; intros c i Hi; [done|].
  destruct i as [|i]; simpl in Hi.
  - injection Hi as ->. cbn [take clock_after timeline_from].
    unfold start_time. split; [lia|]. split; intros t Ht.
    + rewrite lookup_app_l by (rewrite length_replicate; lia).
      apply lookup_replicate_2. lia.
    + rewrite lookup_app_r by (rewrite length_replicate; lia).
      rewrite length_replicate.
      rewrite lookup_app_l by (rewrite length_replicate; lia).
      apply lookup_replicate_2. lia.
  - cbn [take clock_after timeline_from].
    destruct (IH (start_time c q + burst q) i Hi) as (Hle & Hidle & Hrun).
    set (c' := start_time c q + burst q) in *.
    assert (c ≤ c') by (unfold c', start_time; lia).
    assert (∀ t, c' ≤ t →
      (replicate (Z.to_nat (arrival q - c)) IDLE ++
       replicate (Z.to_nat (burst q)) (pid q) ++ timeline_from c' rest)
        !! Z.to_nat (t - c) = timeline_from c' rest !! Z.to_nat (t - c')) as Hshift.
    { intros t Ht. rewrite app_assoc.
      rewrite lookup_app_r
        by (rewrite length_app, !length_replicate; unfold c', start_time in *; lia).
      f_equal. rewrite length_app, !length_replicate.
      unfold c', start_time in *. lia. }
    split; [lia|]. split; intros t Ht.
    + rewrite Hshift by lia. apply Hidle. done.
    + rewrite Hshift by (unfold start_time in *; lia). apply Hrun. done.
Qed.

Lemma timeline_from_elem_of c procs x :
  x ∈ timeline_from c procs → x = IDLE ∨ x ∈ pid <$> procs.
Proof.
  revert c. induction procs as [|p rest IH]; intros c; simpl.
  { by intros ?%elem_of_nil. }
  rewrite !elem_of_app. intros [Hx|[Hx|Hx]].
  - left. by apply elem_of_replicate_inv in Hx.
  - right. apply elem_of_replicate_inv in Hx as ->. by left.
  - destruct (IH _ Hx) as [?|?]; [by left|]. right. by right.
Qed.

(** Each process of a sequence with distinct ids, none of them ["IDLE"],
    contributes exactly one run to the timeline. *)
Lemma timeline_from_one_run c procs p :
  Forall (λ p, 0 < burst p) procs →
  NoDup (pid <$> procs) →
  IDLE ∉ (pid <$> procs) →
  p ∈ procs →
  occurrences (pid p) (squash (timeline_from c procs)) = 1%nat.
Proof.
  intros Hb. revert c. induction Hb as [|q rest Hq Hb IH]; intros c Hnd Hidle Hp.
  { by apply elem_of_nil in Hp. }
  rewrite fmap_cons in Hnd, Hidle.
  apply NoDup_cons in Hnd as [Hq_rest Hnd].
  apply not_elem_of_cons in Hidle as [Hq_idle Hidle].
  cbn [timeline_from].
  assert (pid q ∉ timeline_from (start_time c q + burst q) rest) as Hfresh.
  { intros [?|?]%timeline_from_elem_of; [by apply Hq_idle|done]. }
  destruct (decide (pid p = pid q)) as [Heq|Hne].
  - rewrite Heq.
    rewrite occurrences_squash_replicate_ne by done.
    replace (Z.to_nat (burst q)) with (S (Z.to_nat (burst q) - 1)) by lia.
    by apply occurrences_squash_replicate_self.
  - assert (p ∈ rest) as Hp'.
    { apply elem_of_cons in Hp as [->|?]; done. }
    assert (pid p ≠ IDLE) as Hp_idle.
    { intros Hpi. apply Hidle. rewrite <- Hpi. by apply list_elem_of_fmap_2. }
    rewrite !occurrences_squash_replicate_ne by done.
    by apply IH.
Qed.

(** *** The metrics *)

Lemma schedule_entry_metrics clock p :
  let r := schedule_entry clock p in
  waiting r = Z.max 0 (clock - arrival p) ∧
  turnaround r = waiting r + burst p.
Proof. unfold schedule_entry, start_time. simpl. lia. Qed.

Lemma schedule_from_elem_of c procs r :
  r ∈ schedule_from c procs → ∃ clock p, p ∈ procs ∧ r = schedule_entry clock p.
Proof.
  intros [i Hi]%list_elem_of_lookup_1. rewrite schedule_from_lookup in Hi.
  destruct (procs !! i) as [p|] eqn:Hp; [|done]. injection Hi as <-.
  eexists _, p. split; [|done]. by eapply list_elem_of_lookup_2.
Qed.

(** ** Time markers *)

Lemma foldl_Set_add_elem_of acc l x :
  x ∈ foldl Set_add acc l ↔ x ∈ acc ∨ x ∈ l.
Proof.
  revert acc. induction l as [|y l IH]; intros acc; simpl.
  { rewrite elem_of_nil. tauto. }
  rewrite IH, elem_of_cons. unfold Set_add.
  case_decide as Hy; [|rewrite elem_of_app, list_elem_of_singleton];
    intuition (subst; auto).
Qed.

Lemma foldl_Set_add_NoDup acc l : NoDup acc → NoDup (foldl Set_add acc l).
Proof.
  revert acc. induction l as [|y l IH]; intros acc Hnd; simpl; [done|].
  apply IH. unfold Set_add. case_decide as Hy; [done|].
  apply NoDup_app. split_and!; [done| |apply NoDup_singleton].
  intros z Hz ->%list_elem_of_singleton. done.
Qed.

Lemma Array_from_Set_elem_of l x : x ∈ Array_from_Set l ↔ x ∈ l.
Proof.
  unfold Array_from_Set. rewrite foldl_Set_add_elem_of, elem_of_nil. tauto.
Qed.

Lemma Array_from_Set_NoDup l : NoDup (Array_from_Set l).
Proof. apply foldl_Set_add_NoDup. constructor. Qed.

Lemma Array_sort_numeric_sorted l : StronglySorted Z.le (Array_sort (λ a b, a - b) l).
Proof. apply Array_sort_sorted; [apply _|intros; lia..]. Qed.

Lemma StronglySorted_le_NoDup_lt (l : list Z) :
  StronglySorted Z.le l → NoDup l → StronglySorted Z.lt l.
Proof.
  induction 1 as [|x l Hs IH Hall]; intros Hnd; [constructor|].
  apply NoDup_cons in Hnd as [Hx Hnd].
  constructor; [auto|].
  rewrite Forall_forall in Hall |- *.
  intros y Hy. specialize (Hall y Hy).
  assert (x ≠ y) by (by intros ->). lia.
Qed.

Lemma StronglySorted_le_last (l : list Z) v m :
  StronglySorted Z.le l → last l = Some v → m ∈ l → m ≤ v.
Proof.
  induction 1 as [|x l Hs IH Hall]; [done|].
  destruct l as [|y l].
  - simpl. intros [= <-] ->%list_elem_of_singleton. lia.
  - rewrite last_cons_cons. intros Hv [->|Hm]%elem_of_cons; [|auto].
    rewrite Forall_forall in Hall. apply Hall.
    by apply last_Some_elem_of.
Qed.

Lemma or_zero_last (l : list Z) : or_zero (last l) = default 0 (last l).
Proof. unfold or_zero. destruct (last l); simpl; [|done]. by case_decide. Qed.

Lemma markers_of_elem_of bs x :
  x ∈ markers_of bs ↔ ∃ b, b ∈ bs ∧ (x = start b ∨ x = end_ b).
Proof.
  unfold markers_of.
  rewrite Array_sort_elem_of, Array_from_Set_elem_of, elem_of_app, !list_elem_of_fmap.
  split.
  - intros [(b & -> & Hb)|(b & -> & Hb)]; exists b; auto.
  - intros (b & Hb & [->| ->]); [left|right]; by exists b.
Qed.

Lemma markers_of_sorted bs : StronglySorted Z.lt (markers_of bs).
Proof.
  apply StronglySorted_le_NoDup_lt; [apply Array_sort_numeric_sorted|].
  unfold markers_of. rewrite Array_sort_perm. apply Array_from_Set_NoDup.
Qed.

Lemma markers_of_nil : markers_of [] = [].
Proof. done. Qed.

Lemma markers_of_last_nonempty bs :
  bs ≠ [] → ∃ v, last (markers_of bs) = Some v.
Proof.
  intros Hbs. apply last_is_Some. intros Hm.
  destruct bs as [|b bs]; [done|].
  assert (start b ∈ markers_of (b :: bs)) as Hin.
  { apply markers_of_elem_of. exists b. split; [by left|by left]. }
  rewrite Hm in Hin. by apply elem_of_nil in Hin.
Qed.

(** The largest marker of a chain of blocks is the end of the chain. *)
Lemma markers_of_chained_last a b bs e :
  chained a (b :: bs) e → last (markers_of (b :: bs)) = Some e.
Proof.
  intros Hc.
  destruct (markers_of_last_nonempty (b :: bs)) as [v Hv]; [done|].
  rewrite Hv. f_equal. apply Z.le_antisymm.
  - apply last_Some_elem_of, markers_of_elem_of in Hv as (b' & Hb' & Hv).
    destruct (chained_bounds _ _ _ _ Hc Hb') as (? & ? & ?). lia.
  - eapply StronglySorted_le_last; [|exact Hv|].
    + apply Array_sort_numeric_sorted.
    + destruct (last (b :: bs)) as [bl|] eqn:Hl.
      * apply markers_of_elem_of. exists bl. split.
        -- by apply last_Some_elem_of.
        -- right. symmetry. by eapply chained_last.
      * by apply last_None in Hl.
Qed.

(** ** The store *)

Lemma bind_Some {A B} (m : M A) (k : A → M B) h a h' :
  m h = Some (a, h') → bind m k h = k a h'.
Proof. unfold bind. by intros ->. Qed.

Lemma alloc_spec c (h : heap) :
  ∃ l, alloc c h = Some (l, <[l := c]> h) ∧ h !! l = None.
Proof.
  exists (fresh (dom h)). split; [done|].
  apply not_elem_of_dom, is_fresh.
Qed.

Lemma points_to_mono (h h' : heap) l p :
  h ⊆ h' → points_to h l p → points_to h' l p.
Proof. unfold points_to. intros Hsub Hl. by eapply lookup_weaken. Qed.

Lemma holds_array_mono (h h' : heap) arr ps :
  h ⊆ h' → holds_array h arr ps → holds_array h' arr ps.
Proof.
  intros Hsub (elems & Harr & Hps). exists elems. split.
  - by eapply lookup_weaken.
  - eapply Forall2_impl; [exact Hps|]. intros l p. by apply points_to_mono.
Qed.

Lemma read_obj_spec (h : heap) l p :
  points_to h l p → read_obj l h = Some (p, h).
Proof. unfold points_to, read_obj. by intros ->. Qed.

(** Copying the elements allocates fresh objects and leaves the rest of
    the store as it was. *)
Lemma mapM_spread_spec (h : heap) elems ps :
  Forall2 (points_to h) elems ps →
  ∃ copies h',
    mapM (λ l, let* p := read_obj l in alloc (ObjProcess (spread p))) elems h
      = Some (copies, h') ∧
    h ⊆ h' ∧
    Forall2 (points_to h') copies (spread <$> ps).
Proof.
  revert h ps. induction elems as [|l elems IH]; intros h ps Hps.
  - apply Forall2_nil_inv_l in Hps as ->. exists [], h. done.
  - apply Forall2_cons_inv_l in Hps as (p & ps' & Hl & Hps & ->).
    destruct (alloc_spec (ObjProcess (spread p)) h) as (l' & Hal & Hfresh).
    set (h1 := <[l' := ObjProcess (spread p)]> h) in *.
    assert (h ⊆ h1) as Hsub1 by (by apply insert_subseteq).
    destruct (IH h1 ps') as (copies & h' & Hm & Hsub & Hcopies).
    { eapply Forall2_impl; [exact Hps|]. intros ? ?. by apply points_to_mono. }
    exists (l' :: copies), h'. split_and!.
    + cbn [mapM].
      erewrite bind_Some; [|erewrite bind_Some; [exact Hal|by apply read_obj_spec]].
      erewrite bind_Some; [|exact Hm]. done.
    + by etrans.
    + rewrite fmap_cons. constructor; [|done].
      eapply points_to_mono; [exact Hsub|]. apply lookup_insert_eq.
Qed.

Lemma Array_map_spread_spec (h : heap) processes ps :
  holds_array h processes ps →
  ∃ copied h',
    Array_map_spread processes h = Some (copied, h') ∧
    h ⊆ h' ∧ h !! copied = None ∧
    holds_array h' copied (spread <$> ps).
Proof.
  intros (elems & Harr & Hps).
  destruct (mapM_spread_spec h elems ps Hps) as (copies & h1 & Hm & Hsub & Hcopies).
  destruct (alloc_spec (ArrayOfRefs copies) h1) as (copied & Hal & Hfresh).
  exists copied, (<[copied := ArrayOfRefs copies]> h1).
  assert (h1 ⊆ <[copied := ArrayOfRefs copies]> h1) as Hsub'
    by (by apply insert_subseteq).
  split_and!.
  - unfold Array_map_spread.
    erewrite bind_Some; [|unfold read_arr; by rewrite Harr].
    erewrite bind_Some; [|exact Hm]. done.
  - by etrans.
  - eapply lookup_weaken_None; done.
  - exists copies. split; [apply lookup_insert_eq|].
    eapply Forall2_impl; [exact Hcopies|]. intros ? ?. by apply points_to_mono.
Qed.

Lemma mapM_read_spec (h : heap) elems ps :
  Forall2 (points_to h) elems ps →
  mapM (λ l, let* p := read_obj l in ret (l, p)) elems h = Some (zip elems ps, h).
Proof.
  induction 1 as [|l p elems ps Hl Hps IH]; [done|].
  cbn [mapM zip zip_with].
  erewrite bind_Some; [|erewrite bind_Some; [done|by apply read_obj_spec]].
  erewrite bind_Some; [|exact IH]. done.
Qed.

Lemma foldM_step_spec (h : heap) elems ps st :
  Forall2 (points_to h) elems ps →
  foldM (λ st l, let* current := read_obj l in ret (fcfs_step st current))
        st elems h
  = Some (foldl fcfs_step st ps, h).
Proof.
  intros Hps. revert st. induction Hps as [|l p elems ps Hl Hps IH]; intros st; [done|].
  cbn [foldM foldl].
  erewrite bind_Some; [|erewrite bind_Some; [done|by apply read_obj_spec]].
  apply IH.
Qed.

Lemma for_of_procs_spec (h : heap) procs ps :
  holds_array h procs ps → for_of_procs procs h = Some (simulate ps, h).
Proof.
  intros (elems & Harr & Hps). unfold for_of_procs.
  erewrite bind_Some; [|unfold read_arr; by rewrite Harr].
  by apply foldM_step_spec.
Qed.

Lemma Forall2_zip_Forall {A B} (R : A → B → Prop) l k :
  Forall2 R l k → Forall (λ x, R x.1 x.2) (zip l k).
Proof. induction 1; simpl; by constructor. Qed.

Section StoreSort.
Variable localeCompare : string → string → Z.

(** Sorting in place writes the array and nothing else. *)
Lemma Array_sort_in_place_spec (h : heap) arr ps :
  holds_array h arr ps →
  ∃ h',
    Array_sort_in_place localeCompare arr h = Some (arr, h') ∧
    (∀ l, l ≠ arr → h' !! l = h !! l) ∧
    holds_array h' arr (Array_sort (compareProcs localeCompare) ps).
Proof.
  intros (elems & Harr & Hps).
  set (sorted := Array_sort
    (λ a b : loc * Process, compareProcs localeCompare a.2 b.2) (zip elems ps)).
  exists (<[arr := ArrayOfRefs (sorted.*1)]> h). split_and!.
  - unfold Array_sort_in_place.
    erewrite bind_Some; [|unfold read_arr; by rewrite Harr].
    erewrite bind_Some; [|by apply mapM_read_spec].
    erewrite bind_Some; [|unfold write_arr; by rewrite Harr]. done.
  - intros l Hl. by apply lookup_insert_ne.
  - exists (sorted.*1). split; [apply lookup_insert_eq|].
    replace (Array_sort (compareProcs localeCompare) ps) with (sorted.*2).
    + apply Forall2_fmap, Forall_Forall2_diag.
      apply Forall2_zip_Forall in Hps.
      rewrite Forall_forall in Hps |- *.
      intros x Hx. apply Array_sort_elem_of in Hx.
      specialize (Hps x Hx). unfold points_to in *.
      rewrite lookup_insert_ne; [done|].
      intros Heq. rewrite <- Heq in Hps. congruence.
    + unfold sorted.
      rewrite (Array_sort_fmap (compareProcs localeCompare) snd).
      f_equal. apply snd_zip. by rewrite (Forall2_length _ _ _ Hps).
Qed.

(** [fcfs] on the store computes [fcfs] of the contents of its argument
    and only adds to the store. *)
Lemma fcfs_on_store_spec (h : heap) processes ps :
  holds_array h processes ps →
  ∃ h', fcfs_on_store localeCompare processes h
          = Some (fcfs localeCompare ps, h') ∧ h ⊆ h'.
Proof.
  intros Hin.
  destruct (Array_map_spread_spec h processes ps Hin)
    as (copied & h1 & Hcopy & Hsub1 & Hfresh & Hcopied).
  destruct (Array_sort_in_place_spec h1 copied _ Hcopied)
    as (h2 & Hsort & Hsame & Hsorted).
  exists h2. split.
  - unfold fcfs_on_store.
    erewrite bind_Some; [|exact Hcopy].
    erewrite bind_Some; [|exact Hsort].
    erewrite bind_Some; [|by apply for_of_procs_spec]. done.
  - apply map_subseteq_spec. intros l c Hl.
    rewrite Hsame by congruence. by eapply lookup_weaken.
Qed.
End StoreSort.

(** ** [fcfs] in terms of the sorted sequence *)

Section FcfsFacts.
Variable localeCompare : string → string → Z.

Local Abbreviation sorted := (procs localeCompare).

Lemma procs_sort ps : sorted ps = Array_sort (compareProcs localeCompare) ps.
Proof. unfold procs. by rewrite fmap_spread. Qed.

Lemma procs_perm ps : sorted ps ≡ₚ ps.
Proof. rewrite procs_sort. apply Array_sort_perm. Qed.

Lemma fcfs_results ps : results (fcfs localeCompare ps) = schedule_from 0 (sorted ps).
Proof. unfold fcfs. by rewrite simulate_spec. Qed.

Lemma fcfs_ganttBlocks ps :
  ganttBlocks (fcfs localeCompare ps) = runs_from 0 0 (timeline_from 0 (sorted ps)).
Proof. unfold fcfs. by rewrite simulate_spec, <- compress_runs. Qed.

Lemma fcfs_timeMarkers ps :
  timeMarkers (fcfs localeCompare ps) = markers_of (ganttBlocks (fcfs localeCompare ps)).
Proof. done. Qed.

Lemma fcfs_totalTime ps :
  totalTime (fcfs localeCompare ps)
  = default 0 (last (timeMarkers (fcfs localeCompare ps))).
Proof. unfold fcfs, fcfs_output. cbn [totalTime timeMarkers]. apply or_zero_last. Qed.

Lemma sorted_well_formed ps : well_formed ps → well_formed (sorted ps).
Proof. unfold well_formed. by rewrite procs_perm. Qed.

Lemma well_formed_burst_nonneg ps :
  well_formed ps → Forall (λ p, 0 ≤ burst p) ps.
Proof. intros H. eapply Forall_impl; [exact H|]. intros p [? ?]. lia. Qed.

Lemma well_formed_burst_pos ps :
  well_formed ps → Forall (λ p, 0 < burst p) ps.
Proof. intros H. eapply Forall_impl; [exact H|]. by intros p [? ?]. Qed.

Lemma sorted_nonempty ps : ps ≠ [] → sorted ps ≠ [].
Proof.
  intros Hne Hs. apply Hne, length_zero_iff_nil.
  by rewrite <- (Permutation_length (procs_perm ps)), Hs.
Qed.

(** On a non-empty well-formed input the blocks tile the time from 0 to
    the final value of the clock, and that value is [totalTime]. *)
Lemma fcfs_chained ps :
  ps ≠ [] → well_formed ps →
  let out := fcfs localeCompare ps in
  0 < clock_after 0 (sorted ps) ∧
  ganttBlocks out ≠ [] ∧
  chained 0 (ganttBlocks out) (clock_after 0 (sorted ps)) ∧
  totalTime out = clock_after 0 (sorted ps).
Proof.
  intros Hne Hwf out.
  pose proof (sorted_nonempty _ Hne) as Hsne.
  pose proof (sorted_well_formed _ Hwf) as Hswf.
  pose proof (timeline_from_length 0 _ (well_formed_burst_nonneg _ Hswf)) as Hlen.
  assert (0 < clock_after 0 (sorted ps)) as Hpos.
  { destruct (sorted ps) as [|p rest]; [done|].
    apply Forall_cons in Hswf as [[? ?] Hrest]. cbn [clock_after].
    pose proof (clock_after_le (start_time 0 p + burst p) rest
                  (well_formed_burst_nonneg _ Hrest)).
    unfold start_time in *. lia. }
  assert (chained 0 (ganttBlocks out) (clock_after 0 (sorted ps))) as Hch.
  { unfold out. rewrite fcfs_ganttBlocks.
    destruct (timeline_from 0 (sorted ps)) as [|cur rest] eqn:Htl.
    { simpl in Hlen. lia. }
    pose proof (runs_from_chained 0 0 cur rest (le_n _)) as Hc.
    replace (Z.of_nat (0 + length (cur :: rest))) with (clock_after 0 (sorted ps))
      in Hc by (simpl in *; lia).
    exact Hc. }
  assert (ganttBlocks out ≠ []) as Hbne.
  { intros Hnil. rewrite Hnil in Hch. inversion Hch. lia. }
  split_and!; [done..|].
  unfold out in *. rewrite fcfs_totalTime, fcfs_timeMarkers.
  destruct (ganttBlocks (fcfs localeCompare ps)) as [|b bs]; [done|].
  by rewrite (markers_of_chained_last _ _ _ _ Hch).
Qed.
End FcfsFacts.

Lemma blocks_of_labels label bs :
  blocks_of label bs = occurrences label (process <$> bs).
Proof.
  unfold blocks_of, occurrences. induction bs as [|b bs IH]; [done|].
  rewrite fmap_cons, !filter_cons.
  destruct (decide (process b = label)); simpl; by rewrite IH.
Qed.

(** ** The scenarios of the specification, run on the model *)

Example scenario_single_process :
  fcfs codeUnitCompare [ mkProcess "P1" 0 5 ] =
  {| ganttBlocks := [ mkGanttBlock "P1" 0 5 ];
     timeMarkers := [0; 5];
     totalTime := 5;
     results := [ mkProcessResult "P1" 0 5 5 5 0 ] |}.
Proof. reflexivity. Qed.

Example scenario_idle_gap :
  fcfs codeUnitCompare [ mkProcess "P1" 2 3 ] =
  {| ganttBlocks := [ mkGanttBlock "IDLE" 0 2; mkGanttBlock "P1" 2 5 ];
     timeMarkers := [0; 2; 5];
     totalTime := 5;
     results := [ mkProcessResult "P1" 2 3 5 3 0 ] |}.
Proof. reflexivity. Qed.

Example scenario_tie_break :
  results (fcfs codeUnitCompare tie_break_input) =
  [ mkProcessResult "P1" 0 3 3 3 0; mkProcessResult "P2" 0 2 5 5 3 ].
Proof. reflexivity. Qed.

Example scenario_back_to_back :
  fcfs codeUnitCompare back_to_back_input =
  {| ganttBlocks := [ mkGanttBlock "P1" 0 4; mkGanttBlock "P2" 4 6 ];
     timeMarkers := [0; 4; 6];
     totalTime := 6;
     results := [ mkProcessResult "P1" 0 4 4 4 0;
                  mkProcessResult "P2" 2 2 6 4 2 ] |}.
Proof. reflexivity. Qed.

(** The call on the store sorts a copy: the argument array, at location 0,
    still lists its elements in their original order. *)
Example scenario_store_untouched :
  ∃ out h', fcfs_on_store codeUnitCompare 0%nat tie_break_store = Some (out, h') ∧
            h' !! 0%nat = Some (ArrayOfRefs [1%nat; 2%nat]) ∧
            (res_pid <$> results out) = ["P1"; "P2"].
Proof. eexists _, _. split; [reflexivity|]. split; vm_compute; reflexivity. Qed.

(** Samples are checked to be well formed by computation. *)
Ltac solve_well_formed := repeat constructor; simpl; lia.

(** * The claims of the specification *)




(** C2.  On a non-empty well-formed input the simulation loop processes
    the sorted sequence [procs] with a clock that starts at 0: the
    variable [time] before the [i]-th iteration is the clock before the
    [i]-th entry of the results (0, then the completion of the previous
    entry); the [i]-th process starts at [max clock arrival], the units of
    the timeline from the clock to that start are idle and the units from
    the start to the completion carry its id; its completion is the start
    plus its burst, its turnaround the completion minus its arrival, and
    its waiting the turnaround minus its burst.  This gives every field of
    every entry of the results, and the blocks are the compression of that
    timeline. *)
Theorem fcfs_simulation_pass localeCompare ps :
  ps ≠ [] → well_formed ps →
  let sorted := procs localeCompare ps in
  let st := simulate sorted in
  results (fcfs localeCompare ps) = done st ∧
  ganttBlocks (fcfs localeCompare ps) = compress (uncompressedTimeline st) ∧
  length (done st) = length sorted ∧
  ∀ i p, sorted !! i = Some p →
    let clock := clock_before (done st) i in
    let startTime := Z.max clock (arrival p) in
    time (simulate (take i sorted)) = clock ∧
    time (simulate (take (S i) sorted)) = startTime + burst p ∧
    (∀ t, clock ≤ t < startTime →
          uncompressedTimeline st !! Z.to_nat t = Some IDLE) ∧
    (∀ t, startTime ≤ t < startTime + burst p →
          uncompressedTimeline st !! Z.to_nat t = Some (pid p)) ∧
    ∃ r, done st !! i = Some r ∧
         res_pid r = pid p ∧ res_arrival r = arrival p ∧ res_burst r = burst p ∧
         completion r = startTime + burst p ∧
         turnaround r = completion r - arrival p ∧
         waiting r = turnaround r - burst p.
Proof.
  intros Hne Hwf sorted st.
  pose proof (well_formed_burst_nonneg _ (sorted_well_formed localeCompare _ Hwf))
    as Hb. fold sorted in Hb.
  unfold st. rewrite !simulate_spec. cbn [done uncompressedTimeline time].
  split_and!;
    [apply fcfs_results
    |by rewrite fcfs_ganttBlocks, compress_runs
    |apply schedule_from_length|].
  intros i p Hi.
  set (clock := clock_before (schedule_from 0 sorted) i).
  assert (clock = clock_after 0 (take i sorted)) as Hclock.
  { unfold clock. apply clock_before_schedule_from.
    apply lookup_lt_Some in Hi. lia. }
  destruct (timeline_from_lookup 0 sorted i p Hb Hi) as (Hle & Hidle & Hrun).
  rewrite <- Hclock in Hidle, Hrun. fold (start_time clock p).
  split_and!.
  - by rewrite simulate_spec.
  - rewrite simulate_spec. cbn [time].
    by rewrite (clock_after_take_S _ _ _ _ Hi), <- Hclock.
  - intros t Ht. rewrite <- (Hidle t Ht). f_equal. lia.
  - intros t Ht. rewrite <- (Hrun t Ht). f_equal. lia.
  - exists (schedule_entry clock p). split_and!; try done.
    by rewrite schedule_from_lookup, Hi, Hclock.
Qed.

Lemma fcfs_simulation_pass_witness :
  back_to_back_input ≠ [] ∧ well_formed back_to_back_input ∧
  results (fcfs codeUnitCompare back_to_back_input)
    = done (simulate (procs codeUnitCompare back_to_back_input)) ∧
  done (simulate (procs codeUnitCompare back_to_back_input))
    = [ mkProcessResult "P1" 0 4 4 4 0; mkProcessResult "P2" 2 2 6 4 2 ].
Proof.
  assert (back_to_back_input ≠ []) as Hne by discriminate.
  assert (well_formed back_to_back_input) as Hwf
    by solve_well_formed.
  split; [exact Hne|]. split; [exact Hwf|].
  split; [|reflexivity].
  exact (proj1 (fcfs_simulation_pass codeUnitCompare back_to_back_input Hne Hwf)).
Defined.

(** C3.  On a non-empty well-formed input the blocks of the timeline, in
    order, start at 0 and are contiguous (the end of a block is the start
    of the next one), the sum of their durations is [totalTime], and
    [totalTime] is the maximum completion time of the results (which is
    the completion of the last entry). *)
Theorem fcfs_timeline_coverage localeCompare ps :
  ps ≠ [] → well_formed ps →
  let out := fcfs localeCompare ps in
  (∃ b, head (ganttBlocks out) = Some b ∧ start b = 0) ∧
  (∀ i b b', ganttBlocks out !! i = Some b → ganttBlocks out !! S i = Some b' →
             end_ b = start b') ∧
  total_duration (ganttBlocks out) = totalTime out ∧
  (∃ r, last (results out) = Some r ∧ completion r = totalTime out) ∧
  (∀ r, r ∈ results out → completion r ≤ totalTime out).
Proof.
  intros Hne Hwf out.
  destruct (fcfs_chained localeCompare ps Hne Hwf) as (Hpos & Hbne & Hch & Htot).
  fold out in Hbne, Hch, Htot.
  pose proof (well_formed_burst_nonneg _ (sorted_well_formed localeCompare _ Hwf))
    as Hb.
  split_and!.
  - destruct (ganttBlocks out) as [|b bs]; [done|].
    exists b. split; [done|]. by eapply chained_head.
  - intros i b b'. by apply chained_adjacent with (a := 0) (e := totalTime out);
      rewrite ?Htot.
  - rewrite (chained_duration _ _ _ Hch), Htot. lia.
  - unfold out at 1. rewrite fcfs_results.
    destruct (last (schedule_from 0 (procs localeCompare ps))) as [r|] eqn:Hl.
    + exists r. split; [done|]. rewrite Htot. by apply schedule_from_last.
    + apply last_None in Hl. apply (f_equal length) in Hl.
      rewrite schedule_from_length in Hl. apply length_zero_iff_nil in Hl.
      by apply sorted_nonempty in Hl.
  - intros r. unfold out at 1. rewrite fcfs_results, Htot.
    by apply schedule_from_completion_le.
Qed.

Lemma fcfs_timeline_coverage_witness :
  late_arrivals_input ≠ [] ∧ well_formed late_arrivals_input ∧
  ganttBlocks (fcfs codeUnitCompare late_arrivals_input)
    = [ mkGanttBlock "IDLE" 0 2; mkGanttBlock "P1" 2 5;
        mkGanttBlock "IDLE" 5 9; mkGanttBlock "P2" 9 10 ] ∧
  total_duration (ganttBlocks (fcfs codeUnitCompare late_arrivals_input))
    = totalTime (fcfs codeUnitCompare late_arrivals_input).
Proof.
  assert (late_arrivals_input ≠ []) as Hne by discriminate.
  assert (well_formed late_arrivals_input) as Hwf
    by solve_well_formed.
  split; [exact Hne|]. split; [exact Hwf|]. split; [reflexivity|].
  exact (proj1 (proj2 (proj2
    (fcfs_timeline_coverage codeUnitCompare late_arrivals_input Hne Hwf)))).
Defined.

(** C4.  On a non-empty well-formed input every entry of the results has
    [waiting >= 0] and [turnaround >= burst]: its waiting time is
    [max 0 (clock - arrival)] and its turnaround the waiting time plus the
    burst.  (The proof uses neither premise.) *)
Theorem fcfs_waiting_turnaround_bounds localeCompare ps :
  ps ≠ [] → well_formed ps →
  ∀ r, r ∈ results (fcfs localeCompare ps) →
       waiting r >= 0 ∧ turnaround r >= res_burst r.
Proof.
  intros _ _ r.
  rewrite fcfs_results. intros (clock & p & _ & ->)%schedule_from_elem_of.
  destruct (schedule_entry_metrics clock p) as [Hw Ht].
  rewrite Ht, Hw. simpl. lia.
Qed.

Lemma fcfs_waiting_turnaround_bounds_witness :
  back_to_back_input ≠ [] ∧ well_formed back_to_back_input ∧
  mkProcessResult "P2" 2 2 6 4 2 ∈ results (fcfs codeUnitCompare back_to_back_input) ∧
  waiting (mkProcessResult "P2" 2 2 6 4 2) >= 0 ∧
  turnaround (mkProcessResult "P2" 2 2 6 4 2) >= res_burst (mkProcessResult "P2" 2 2 6 4 2).
Proof.
  assert (back_to_back_input ≠ []) as Hne by discriminate.
  assert (well_formed back_to_back_input) as Hwf
    by solve_well_formed.
  assert (mkProcessResult "P2" 2 2 6 4 2
            ∈ results (fcfs codeUnitCompare back_to_back_input)) as Hin
    by (right; left).
  split; [exact Hne|]. split; [exact Hwf|]. split; [exact Hin|].
  exact (fcfs_waiting_turnaround_bounds codeUnitCompare back_to_back_input
           Hne Hwf _ Hin).
Defined.

(** C5, as stated, fails: in [late_arrivals_input] the first process
    starts at time 2, after an idle interval, and waits 0. *)
Lemma waiting_zero_only_first_fails :
  late_arrivals_input ≠ [] ∧ well_formed late_arrivals_input ∧
  ¬ waiting_zero_only_first codeUnitCompare late_arrivals_input.
Proof.
  split; [discriminate|]. split; [solve_well_formed|].
  intros H.
  destruct (H 0%nat (mkProcessResult "P1" 2 3 5 3 0) eq_refl) as [H1 _].
  destruct (H1 eq_refl) as [_ H2]. discriminate H2.
Qed.

(** C5, amended.  On a non-empty well-formed input an entry of the results
    has [waiting = 0] exactly when its process starts on arrival, that is
    when the clock before it (0 for the first entry, the completion of the
    previous entry otherwise) has not passed its arrival time; this is
    always so for the first entry.  Every other entry waits for the
    difference between that clock and its arrival, which is positive. *)
Theorem fcfs_waiting_zero_iff_starts_on_arrival localeCompare ps :
  ps ≠ [] → well_formed ps →
  let rs := results (fcfs localeCompare ps) in
  ∀ i r, rs !! i = Some r →
    (waiting r = 0 ↔ clock_before rs i ≤ res_arrival r) ∧
    (res_arrival r < clock_before rs i →
       waiting r = clock_before rs i - res_arrival r ∧ waiting r > 0) ∧
    (i = 0%nat → waiting r = 0).
Proof.
  intros Hne Hwf rs i r Hr. unfold rs in *. rewrite fcfs_results in *.
  pose proof (lookup_lt_Some _ _ _ Hr) as Hlt.
  rewrite schedule_from_length in Hlt.
  rewrite clock_before_schedule_from by lia.
  rewrite schedule_from_lookup in Hr.
  destruct (procs localeCompare ps !! i) as [p|] eqn:Hp; [|done].
  injection Hr as <-.
  destruct (schedule_entry_metrics (clock_after 0 (take i (procs localeCompare ps))) p)
    as [Hw _].
  rewrite Hw. cbn [res_arrival schedule_entry].
  split_and!; [lia|lia|].
  intros ->. rewrite take_0. cbn [clock_after].
  assert (0 ≤ arrival p); [|lia].
  pose proof (sorted_well_formed localeCompare _ Hwf) as Hswf.
  unfold well_formed in Hswf. rewrite Forall_forall in Hswf.
  apply Hswf. by eapply list_elem_of_lookup_2.
Qed.

Lemma fcfs_waiting_zero_iff_starts_on_arrival_witness :
  back_to_back_input ≠ [] ∧ well_formed back_to_back_input ∧
  results (fcfs codeUnitCompare back_to_back_input) !! 1%nat
    = Some (mkProcessResult "P2" 2 2 6 4 2) ∧
  clock_before (results (fcfs codeUnitCompare back_to_back_input)) 1 = 4 ∧
  (waiting (mkProcessResult "P2" 2 2 6 4 2) = 0 ↔
   clock_before (results (fcfs codeUnitCompare back_to_back_input)) 1
     ≤ res_arrival (mkProcessResult "P2" 2 2 6 4 2)).
Proof.
  assert (back_to_back_input ≠ []) as Hne by discriminate.
  assert (well_formed back_to_back_input) as Hwf
    by solve_well_formed.
  split; [exact Hne|]. split; [exact Hwf|].
  split; [reflexivity|]. split; [reflexivity|].
  exact (proj1 (fcfs_waiting_zero_iff_starts_on_arrival codeUnitCompare
                  back_to_back_input Hne Hwf 1%nat _ eq_refl)).
Defined.

(** C6.  On a non-empty well-formed input no two adjacent blocks of the
    timeline carry the same label: the runs are maximal.  (The labels of
    the blocks are the timeline with its adjacent repetitions removed; the
    proof uses neither premise.) *)
Theorem fcfs_blocks_are_maximal_runs localeCompare ps :
  ps ≠ [] → well_formed ps →
  ∀ i b b',
    ganttBlocks (fcfs localeCompare ps) !! i = Some b →
    ganttBlocks (fcfs localeCompare ps) !! S i = Some b' →
    process b ≠ process b'.
Proof.
  intros _ _ i b b'.
  rewrite fcfs_ganttBlocks. intros Hb Hb'.
  apply (squash_adjacent (timeline_from 0 (procs localeCompare ps)) i);
    rewrite <- (runs_from_labels 0 0), list_lookup_fmap.
  - by rewrite Hb.
  - by rewrite Hb'.
Qed.

Lemma fcfs_blocks_are_maximal_runs_witness :
  late_arrivals_input ≠ [] ∧ well_formed late_arrivals_input ∧
  ganttBlocks (fcfs codeUnitCompare late_arrivals_input) !! 1%nat
    = Some (mkGanttBlock "P1" 2 5) ∧
  ganttBlocks (fcfs codeUnitCompare late_arrivals_input) !! 2%nat
    = Some (mkGanttBlock "IDLE" 5 9) ∧
  process (mkGanttBlock "P1" 2 5) ≠ process (mkGanttBlock "IDLE" 5 9).
Proof.
  assert (late_arrivals_input ≠ []) as Hne by discriminate.
  assert (well_formed late_arrivals_input) as Hwf
    by solve_well_formed.
  split; [exact Hne|]. split; [exact Hwf|].
  split; [reflexivity|]. split; [reflexivity|].
  exact (fcfs_blocks_are_maximal_runs codeUnitCompare late_arrivals_input
           Hne Hwf 1%nat _ _ eq_refl eq_refl).
Defined.

(** C7, as stated, fails: the ids of [idle_named_input] are pairwise
    distinct, and two blocks of its timeline carry the id ["IDLE"], the
    process of that name and an idle interval. *)
Lemma one_block_per_process_fails :
  idle_named_input ≠ [] ∧ well_formed idle_named_input ∧
  NoDup (pid <$> idle_named_input) ∧
  ¬ one_block_per_process codeUnitCompare idle_named_input.
Proof.
  split; [discriminate|]. split; [solve_well_formed|].
  split; [compute_done|].
  intros H. specialize (H (mkProcess "IDLE" 0 1)).
  assert (mkProcess "IDLE" 0 1 ∈ idle_named_input) as Hin by left.
  specialize (H Hin). vm_compute in H. discriminate H.
Qed.

(** C7, amended.  On a non-empty well-formed input whose ids are pairwise
    distinct and differ from the idle label ["IDLE"], each process of the
    input labels exactly one block of the timeline. *)
Theorem fcfs_one_block_per_process localeCompare ps :
  ps ≠ [] → well_formed ps →
  NoDup (pid <$> ps) → IDLE ∉ (pid <$> ps) →
  one_block_per_process localeCompare ps.
Proof.
  intros Hne Hwf Hnd Hidle p Hp.
  rewrite blocks_of_labels, fcfs_ganttBlocks, runs_from_labels.
  pose proof (procs_perm localeCompare ps) as Hperm.
  apply timeline_from_one_run.
  - by apply well_formed_burst_pos, sorted_well_formed.
  - by rewrite Hperm.
  - by rewrite Hperm.
  - by rewrite Hperm.
Qed.

Lemma fcfs_one_block_per_process_witness :
  late_arrivals_input ≠ [] ∧ well_formed late_arrivals_input ∧
  NoDup (pid <$> late_arrivals_input) ∧
  (IDLE ∉ pid <$> late_arrivals_input) ∧
  blocks_of "P1" (ganttBlocks (fcfs codeUnitCompare late_arrivals_input)) = 1%nat.
Proof.
  assert (late_arrivals_input ≠ []) as Hne by discriminate.
  assert (well_formed late_arrivals_input) as Hwf
    by solve_well_formed.
  assert (NoDup (pid <$> late_arrivals_input)) as Hnd by compute_done.
  assert (IDLE ∉ (pid <$> late_arrivals_input)) as Hidle by compute_done.
  split; [exact Hne|]. split; [exact Hwf|]. split; [exact Hnd|].
  split; [exact Hidle|].
  apply (fcfs_one_block_per_process codeUnitCompare late_arrivals_input
           Hne Hwf Hnd Hidle (mkProcess "P1" 2 3)).
  left.
Defined.

(** C8.  For every input, [timeMarkers] is the set of the start and end
    values of the blocks, without duplicates and in ascending order (it is
    strictly increasing and has exactly those values as elements), and
    [totalTime] is the largest marker, or 0 when there are no blocks. *)
Theorem fcfs_time_markers localeCompare ps :
  let out := fcfs localeCompare ps in
  StronglySorted Z.lt (timeMarkers out) ∧
  (∀ x, x ∈ timeMarkers out ↔
        ∃ b, b ∈ ganttBlocks out ∧ (x = start b ∨ x = end_ b)) ∧
  (ganttBlocks out = [] → totalTime out = 0) ∧
  (ganttBlocks out ≠ [] →
     totalTime out ∈ timeMarkers out ∧
     ∀ m, m ∈ timeMarkers out → m ≤ totalTime out).
Proof.
  intros out. unfold out.
  rewrite fcfs_totalTime, fcfs_timeMarkers.
  generalize (ganttBlocks (fcfs localeCompare ps)). intros bs.
  split_and!.
  - apply markers_of_sorted.
  - apply markers_of_elem_of.
  - by intros ->.
  - intros Hne. destruct (markers_of_last_nonempty bs Hne) as [v Hv].
    rewrite Hv. cbn [default]. split.
    + by apply last_Some_elem_of.
    + intros m Hm. eapply StronglySorted_le_last; [|exact Hv|exact Hm].
      apply Array_sort_numeric_sorted.
Qed.

(** C9.  [fcfs] is a function of the contents of its argument and leaves
    the store it was called in untouched: called on a reference to an
    array that holds the processes [ps], it returns [fcfs ps]; every cell
    of the store before the call is the same after it, so the argument
    still holds [ps]; and a second call on the same argument returns the
    same result. *)
Theorem fcfs_deterministic_and_pure localeCompare (h : heap) processes ps :
  holds_array h processes ps →
  ∃ out h1 h2,
    fcfs_on_store localeCompare processes h = Some (out, h1) ∧
    out = fcfs localeCompare ps ∧
    h ⊆ h1 ∧
    holds_array h1 processes ps ∧
    fcfs_on_store localeCompare processes h1 = Some (out, h2) ∧
    h1 ⊆ h2.
Proof.
  intros Hin.
  destruct (fcfs_on_store_spec localeCompare h processes ps Hin)
    as (h1 & Hrun1 & Hsub1).
  pose proof (holds_array_mono _ _ _ _ Hsub1 Hin) as Hin1.
  destruct (fcfs_on_store_spec localeCompare h1 processes ps Hin1)
    as (h2 & Hrun2 & Hsub2).
  by exists (fcfs localeCompare ps), h1, h2.
Qed.

Lemma fcfs_deterministic_and_pure_witness :
  holds_array tie_break_store 0%nat tie_break_input ∧
  ∃ out h1 h2,
    fcfs_on_store codeUnitCompare 0%nat tie_break_store = Some (out, h1) ∧
    out = fcfs codeUnitCompare tie_break_input ∧
    tie_break_store ⊆ h1 ∧
    holds_array h1 0%nat tie_break_input ∧
    fcfs_on_store codeUnitCompare 0%nat h1 = Some (out, h2) ∧
    h1 ⊆ h2.
Proof.
  assert (holds_array tie_break_store 0%nat tie_break_input) as Hin.
  { exists [1%nat; 2%nat]. split; [reflexivity|].
    repeat constructor. }
  split; [exact Hin|].
  exact (fcfs_deterministic_and_pure codeUnitCompare tie_break_store 0%nat
           tie_break_input Hin).
Defined.

(** C10.  On an empty input [fcfs] signals no error: it returns empty
    results, no block, no marker and [totalTime = 0]; so does the call on
    a store that holds an empty array. *)
Theorem fcfs_empty_input localeCompare :
  fcfs localeCompare [] = empty_output ∧
  ∀ (h : heap) processes,
    h !! processes = Some (ArrayOfRefs []) →
    ∃ h', fcfs_on_store localeCompare processes h = Some (empty_output, h').
Proof.
  split; [reflexivity|].
  intros h processes Harr.
  destruct (fcfs_on_store_spec localeCompare h processes []) as (h' & Hrun & _).
  { exists []. split; [done|constructor]. }
  by exists h'.
Qed.

Lemma fcfs_empty_input_witness :
  empty_array_store !! 0%nat = Some (ArrayOfRefs []) ∧
  ∃ h', fcfs_on_store codeUnitCompare 0%nat empty_array_store
          = Some (empty_output, h').
Proof.
  assert (empty_array_store !! 0%nat = Some (ArrayOfRefs [])) as Harr
    by reflexivity.
  split; [exact Harr|].
  exact (proj2 (fcfs_empty_input codeUnitCompare) empty_array_store 0%nat Harr).
Defined.

Lemma fcfs_time_markers_witness :
  timeMarkers (fcfs codeUnitCompare late_arrivals_input) = [0; 2; 5; 9; 10] ∧
  totalTime (fcfs codeUnitCompare late_arrivals_input) = 10 ∧
  StronglySorted Z.lt (timeMarkers (fcfs codeUnitCompare late_arrivals_input)).
Proof.
  split; [reflexivity|]. split; [reflexivity|].
  exact (proj1 (fcfs_time_markers codeUnitCompare late_arrivals_input)).
Defined.

(** * Further properties of the scheduler *)

#[global] Instance arrival_le_trans :
  Transitive (λ a b : Process, arrival a ≤ arrival b).
Proof. intros a b c ? ?. lia. Qed.

Lemma clock_after_mono c procs i j :
  Forall (λ p, 0 ≤ burst p) procs →
  (i ≤ j)%nat →
  clock_after c (take i procs) ≤ clock_after c (take j procs).
Proof.
  intros Hb Hij.
  replace (take i procs) with (take i (take j procs))
    by (rewrite take_take; f_equal; lia).
  apply clock_after_take_le. by apply Forall_take.
Qed.

Lemma sum_bursts_perm ps qs : ps ≡ₚ qs → sum_bursts ps = sum_bursts qs.
Proof. induction 1; simpl; lia. Qed.

Lemma max_arrival_perm ps qs : ps ≡ₚ qs → max_arrival ps = max_arrival qs.
Proof. induction 1; simpl; lia. Qed.

Lemma clock_after_bounds c procs :
  Forall (λ p, 0 ≤ burst p) procs →
  c + sum_bursts procs ≤ clock_after c procs ∧
  clock_after c procs ≤ Z.max c (max_arrival procs) + sum_bursts procs.
Proof.
  intros Hb. revert c. induction Hb as [|p rest Hp Hb IH]; intros c; simpl; [lia|].
  destruct (IH (start_time c p + burst p)) as [? ?].
  unfold start_time in *. lia.
Qed.

(** The blocks of any timeline: nothing for the empty one, a chain from 0
    to its length otherwise. *)
Lemma compress_chained tl :
  tl ≠ [] → chained 0 (runs_from 0 0 tl) (Z.of_nat (length tl)).
Proof.
  destruct tl as [|cur rest]; [done|]. intros _.
  exact (runs_from_chained 0 0 cur rest (le_n _)).
Qed.

(** [totalTime] is the length of the timeline, for any input. *)
Lemma fcfs_totalTime_length localeCompare ps :
  totalTime (fcfs localeCompare ps)
  = Z.of_nat (length (timeline_from 0 (procs localeCompare ps))).
Proof.
  rewrite fcfs_totalTime, fcfs_timeMarkers, fcfs_ganttBlocks.
  destruct (timeline_from 0 (procs localeCompare ps)) as [|cur rest] eqn:Htl;
    [done|].
  pose proof (compress_chained (cur :: rest)) as Hc.
  destruct (runs_from 0 0 (cur :: rest)) as [|b bs] eqn:Hruns.
  - specialize (Hc ltac:(done)). inversion Hc; simpl in *; lia.
  - by rewrite (markers_of_chained_last _ _ _ _ (Hc ltac:(done))).
Qed.

Lemma fcfs_blocks_chained localeCompare ps :
  chained 0 (ganttBlocks (fcfs localeCompare ps)) (totalTime (fcfs localeCompare ps)).
Proof.
  rewrite fcfs_totalTime_length, fcfs_ganttBlocks.
  destruct (timeline_from 0 (procs localeCompare ps)) as [|cur rest] eqn:Htl.
  - constructor.
  - by apply compress_chained.
Qed.

(** X1.  Whatever the collation of the host, the results list the
    processes of the input in the order of their arrival: they are a
    permutation of the input in which arrival times never decrease. *)
Theorem fcfs_first_come_first_served localeCompare ps :
  let order := result_process <$> results (fcfs localeCompare ps) in
  order ≡ₚ ps ∧ StronglySorted (λ a b, arrival a ≤ arrival b) order.
Proof.
  intros order.
  assert (order = Array_sort (compareProcs localeCompare) ps) as ->.
  { unfold order. by rewrite fcfs_results, schedule_from_processes, procs_sort. }
  split; [apply Array_sort_perm|].
  apply Array_sort_sorted; [apply _|..]; intros x y _ _;
    unfold compareProcs; simpl; case_decide; lia.
Qed.

(** X2.  On a well-formed input no process starts before it has arrived,
    and none starts before a process listed earlier in the results has
    completed: FCFS runs one process at a time, each to completion.  (The
    start time of an entry is its completion minus its burst.) *)
Theorem fcfs_runs_do_not_overlap localeCompare ps :
  well_formed ps →
  let rs := results (fcfs localeCompare ps) in
  (∀ j rj, rs !! j = Some rj →
     res_arrival rj ≤ completion rj - res_burst rj) ∧
  (∀ i j ri rj, (i < j)%nat → rs !! i = Some ri → rs !! j = Some rj →
     completion ri ≤ completion rj - res_burst rj).
Proof.
  intros Hwf rs. unfold rs. rewrite fcfs_results.
  pose proof (well_formed_burst_nonneg _ (sorted_well_formed localeCompare _ Hwf))
    as Hb.
  split.
  - intros j rj Hj. rewrite schedule_from_lookup in Hj.
    destruct (procs localeCompare ps !! j) as [p|] eqn:Hp; [|done].
    injection Hj as <-. cbn [completion res_burst res_arrival schedule_entry].
    unfold start_time. lia.
  - intros i j ri rj Hij Hi Hj.
    apply schedule_from_completion in Hi. rewrite Hi.
    rewrite schedule_from_lookup in Hj.
    destruct (procs localeCompare ps !! j) as [p|] eqn:Hp; [|done].
    injection Hj as <-. cbn [completion res_burst res_arrival schedule_entry].
    pose proof (clock_after_mono 0 _ (S i) j Hb ltac:(lia)).
    unfold start_time. lia.
Qed.

Lemma fcfs_runs_do_not_overlap_witness :
  well_formed back_to_back_input ∧
  results (fcfs codeUnitCompare back_to_back_input) !! 0%nat
    = Some (mkProcessResult "P1" 0 4 4 4 0) ∧
  results (fcfs codeUnitCompare back_to_back_input) !! 1%nat
    = Some (mkProcessResult "P2" 2 2 6 4 2) ∧
  res_arrival (mkProcessResult "P1" 0 4 4 4 0)
    ≤ completion (mkProcessResult "P1" 0 4 4 4 0)
      - res_burst (mkProcessResult "P1" 0 4 4 4 0) ∧
  completion (mkProcessResult "P1" 0 4 4 4 0)
    ≤ completion (mkProcessResult "P2" 2 2 6 4 2)
      - res_burst (mkProcessResult "P2" 2 2 6 4 2).
Proof.
  assert (well_formed back_to_back_input) as Hwf by solve_well_formed.
  split; [exact Hwf|]. split; [reflexivity|]. split; [reflexivity|].
  split.
  - exact (proj1 (fcfs_runs_do_not_overlap codeUnitCompare back_to_back_input Hwf)
             0%nat _ eq_refl).
  - exact (proj2 (fcfs_runs_do_not_overlap codeUnitCompare back_to_back_input Hwf)
             0%nat 1%nat _ _ (le_n 1) eq_refl eq_refl).
Defined.

(** X3.  For any input, every block of the timeline is a non-empty
    interval inside [0, totalTime], and its label is ["IDLE"] or the id of
    a process of the input. *)
Theorem fcfs_blocks_are_intervals localeCompare ps b :
  b ∈ ganttBlocks (fcfs localeCompare ps) →
  0 ≤ start b ∧ start b < end_ b ∧ end_ b ≤ totalTime (fcfs localeCompare ps) ∧
  (process b = IDLE ∨ process b ∈ pid <$> ps).
Proof.
  intros Hb.
  destruct (chained_bounds _ _ _ _ (fcfs_blocks_chained localeCompare ps) Hb)
    as (? & ? & ?).
  split_and!; [done..|].
  rewrite fcfs_ganttBlocks in Hb.
  apply (list_elem_of_fmap_2 process) in Hb.
  rewrite runs_from_labels in Hb.
  apply squash_elem_of, timeline_from_elem_of in Hb as [?|Hin]; [by left|right].
  by rewrite <- (procs_perm localeCompare ps).
Qed.

(** X4.  On a well-formed input [totalTime] is at least the sum of the
    bursts and at most the latest arrival plus that sum; when every
    process arrives at time 0 it is exactly the sum of the bursts. *)
Theorem fcfs_totalTime_bounds localeCompare ps :
  well_formed ps →
  sum_bursts ps ≤ totalTime (fcfs localeCompare ps) ∧
  totalTime (fcfs localeCompare ps) ≤ max_arrival ps + sum_bursts ps ∧
  (Forall (λ p, arrival p = 0) ps →
   totalTime (fcfs localeCompare ps) = sum_bursts ps).
Proof.
  intros Hwf.
  pose proof (well_formed_burst_nonneg _ (sorted_well_formed localeCompare _ Hwf))
    as Hb.
  rewrite fcfs_totalTime_length.
  rewrite (timeline_from_length 0 _ Hb).
  destruct (clock_after_bounds 0 _ Hb) as [Hlo Hhi].
  rewrite (sum_bursts_perm _ _ (procs_perm localeCompare ps)) in Hlo, Hhi.
  rewrite (max_arrival_perm _ _ (procs_perm localeCompare ps)) in Hhi.
  assert (0 ≤ max_arrival ps) as Hmax.
  { clear. induction ps; simpl; lia. }
  split_and!; [lia|lia|].
  intros Hzero.
  assert (max_arrival ps = 0) as Hm.
  { clear -Hzero. induction Hzero as [|p ps Hp _ IH]; simpl; lia. }
  lia.
Qed.

Lemma fcfs_totalTime_bounds_witness :
  well_formed late_arrivals_input ∧
  sum_bursts late_arrivals_input = 4 ∧
  max_arrival late_arrivals_input = 9 ∧
  totalTime (fcfs codeUnitCompare late_arrivals_input) = 10 ∧
  sum_bursts late_arrivals_input ≤ totalTime (fcfs codeUnitCompare late_arrivals_input).
Proof.
  assert (well_formed late_arrivals_input) as Hwf by solve_well_formed.
  split; [exact Hwf|]. split; [reflexivity|]. split; [reflexivity|].
  split; [reflexivity|].
  exact (proj1 (fcfs_totalTime_bounds codeUnitCompare late_arrivals_input Hwf)).
Defined.

(** * The output component *)

Lemma chained_bars_width a bs e :
  chained a bs e → bars_width bs = (e - a) * 40.
Proof.
  induction 1 as [|b bs e Hlt Hc IH]; simpl; [lia|].
  rewrite IH. unfold widthPx. lia.
Qed.

Lemma chained_bars_width_take a bs e k b :
  chained a bs e → bs !! k = Some b →
  bars_width (take k bs) = (start b - a) * 40 ∧
  bars_width (take (S k) bs) = (end_ b - a) * 40.
Proof.
  intros Hc. revert k. induction Hc as [|b0 bs e Hlt Hc IH]; intros k Hk; [done|].
  destruct k as [|k]; simpl in Hk.
  - injection Hk as ->. simpl. unfold widthPx. lia.
  - destruct (IH k Hk) as [IH1 IH2].
    change (take (S (S k)) (b0 :: bs)) with (b0 :: take (S k) bs).
    change (take (S k) (b0 :: bs)) with (b0 :: take k bs).
    cbn [bars_width foldr]. fold (bars_width (take k bs)).
    fold (bars_width (take (S k) bs)).
    rewrite IH1, IH2. unfold widthPx. lia.
Qed.

(** X5.  The time axis lines up with the bars, for any input: the bars
    drawn before a block are as wide as the position of the tick of its
    start, the bars up to and including it as wide as the position of the
    tick of its end, every tick sits on such a boundary, and all bars
    together are [40 * totalTime] pixels wide, which the minimal width of
    the chart accommodates. *)
Theorem fcfs_chart_alignment localeCompare ps :
  let out := fcfs localeCompare ps in
  (∀ k b, ganttBlocks out !! k = Some b →
     bars_width (take k (ganttBlocks out)) = positionPx (start b) ∧
     bars_width (take (S k) (ganttBlocks out)) = positionPx (end_ b)) ∧
  (∀ m, m ∈ timeMarkers out →
     ∃ k, bars_width (take k (ganttBlocks out)) = positionPx m) ∧
  bars_width (ganttBlocks out) = positionPx (totalTime out) ∧
  bars_width (ganttBlocks out) ≤ chart_minWidth (totalTime out).
Proof.
  intros out.
  pose proof (fcfs_blocks_chained localeCompare ps) as Hc. fold out in Hc.
  assert (∀ k b, ganttBlocks out !! k = Some b →
     bars_width (take k (ganttBlocks out)) = positionPx (start b) ∧
     bars_width (take (S k) (ganttBlocks out)) = positionPx (end_ b)) as Hk.
  { intros k b Hb.
    destruct (chained_bars_width_take _ _ _ _ _ Hc Hb) as [-> ->].
    unfold positionPx. lia. }
  split_and!; [done| | |].
  - intros m Hm. unfold out in Hm. rewrite fcfs_timeMarkers in Hm.
    apply markers_of_elem_of in Hm as (b & [k Hb]%list_elem_of_lookup_1 & Hm).
    destruct (Hk k b Hb) as [Hs He].
    destruct Hm as [-> | ->]; [by exists k|by exists (S k)].
  - rewrite (chained_bars_width _ _ _ Hc). unfold positionPx. lia.
  - rewrite (chained_bars_width _ _ _ Hc). unfold chart_minWidth. lia.
Qed.

Lemma foldl_add_shift {A} (f : A → Z) (l : list A) (acc : Z) :
  foldl (λ sum p, sum + f p) acc l = acc + foldl (λ sum p, sum + f p) 0 l.
Proof.
  revert acc. induction l as [|x l IH]; intros acc; simpl; [lia|].
  rewrite (IH (acc + f x)), (IH (0 + f x)). lia.
Qed.

(** X6.  On a well-formed input, the total turnaround time that [avgT]
    averages is the total waiting time that [avgW] averages plus the sum
    of the bursts of the input: the average turnaround is the average
    waiting plus the average burst. *)
Theorem fcfs_total_turnaround localeCompare ps :
  well_formed ps →
  total_turnaround (results (fcfs localeCompare ps))
  = total_waiting (results (fcfs localeCompare ps)) + sum_bursts ps.
Proof.
  intros _.
  rewrite fcfs_results.
  rewrite <- (sum_bursts_perm _ _ (procs_perm localeCompare ps)).
  generalize (procs localeCompare ps). intros l.
  unfold total_turnaround, total_waiting.
  assert (∀ c, foldl (λ sum p, sum + turnaround p) 0 (schedule_from c l)
             = foldl (λ sum p, sum + waiting p) 0 (schedule_from c l)
               + sum_bursts l) as H; [|apply H].
  induction l as [|p rest IH]; intros c; simpl; [done|].
  rewrite (foldl_add_shift turnaround), (foldl_add_shift waiting), IH.
  lia.
Qed.

Lemma fcfs_total_turnaround_witness :
  well_formed back_to_back_input ∧
  total_turnaround (results (fcfs codeUnitCompare back_to_back_input)) = 8 ∧
  total_waiting (results (fcfs codeUnitCompare back_to_back_input)) = 2 ∧
  sum_bursts back_to_back_input = 6 ∧
  total_turnaround (results (fcfs codeUnitCompare back_to_back_input))
  = total_waiting (results (fcfs codeUnitCompare back_to_back_input))
    + sum_bursts back_to_back_input.
Proof.
  assert (well_formed back_to_back_input) as Hwf by solve_well_formed.
  split; [exact Hwf|]. split; [reflexivity|]. split; [reflexivity|].
  split; [reflexivity|].
  exact (fcfs_total_turnaround codeUnitCompare back_to_back_input Hwf).
Defined.

(** ** Colours *)

Lemma pid_of_number_not_IDLE n : pid_of_number n ≠ IDLE.
Proof. discriminate. Qed.

Lemma style_of_index_not_idle index : style_of_index index ≠ idle_style.
Proof. unfold style_of_index. repeat case_match; discriminate. Qed.

Lemma style_of_index_inj (a b : Z) :
  0 ≤ a < 6 → 0 ≤ b < 6 →
  style_of_index (Some a) = style_of_index (Some b) → a = b.
Proof.
  intros Ha Hb.
  assert (a = 0 ∨ a = 1 ∨ a = 2 ∨ a = 3 ∨ a = 4 ∨ a = 5) as Ha' by lia.
  assert (b = 0 ∨ b = 1 ∨ b = 2 ∨ b = 3 ∨ b = 4 ∨ b = 5) as Hb' by lia.
  destruct Ha' as [->|[->|[->|[->|[->| ->]]]]];
    destruct Hb' as [->|[->|[->|[->|[->| ->]]]]];
    simpl; first [done | discriminate].
Qed.

(** X7.  Only the label ["IDLE"] is drawn in the idle style, whatever
    [parseInt] makes of an id. *)
Theorem getProcessColor_idle_only parseInt pid :
  getProcessColor parseInt pid = idle_style ↔ pid = IDLE.
Proof.
  unfold getProcessColor. case_decide as Hp; [done|].
  split; [|done]. intros H. by apply style_of_index_not_idle in H.
Qed.

(** X8.  Two ids [`P${n}`] and [`P${m}`], on which [parseInt] returns the
    numbers they were built from, are drawn in the same colour exactly
    when [n] and [m] are congruent modulo 6: six rows in a row never share
    a colour, and row [n + 6] has the colour of row [n]. *)
Theorem getProcessColor_by_number parseInt n m :
  parseInt (number_to_string n) = Some (Z.of_nat n) →
  parseInt (number_to_string m) = Some (Z.of_nat m) →
  getProcessColor parseInt (pid_of_number n)
    = style_of_index (Some (Z.of_nat (n mod 6)%nat)) ∧
  (getProcessColor parseInt (pid_of_number n)
     = getProcessColor parseInt (pid_of_number m)
   ↔ (n mod 6 = m mod 6)%nat).
Proof.
  intros Hn Hm.
  assert (∀ k, parseInt (number_to_string k) = Some (Z.of_nat k) →
    getProcessColor parseInt (pid_of_number k)
      = style_of_index (Some (Z.of_nat (k mod 6)%nat))) as Hcol.
  { intros k Hk. unfold getProcessColor.
    rewrite decide_False by apply pid_of_number_not_IDLE.
    change (remove_first_P (pid_of_number k)) with (number_to_string k).
    rewrite Hk. cbn [fmap option_fmap option_map]. do 2 f_equal.
    rewrite Z.rem_mod_nonneg by lia. by rewrite Nat2Z.inj_mod. }
  split; [by apply Hcol|].
  rewrite (Hcol n Hn), (Hcol m Hm).
  pose proof (Nat.mod_upper_bound n 6 ltac:(done)) as Hn6.
  pose proof (Nat.mod_upper_bound m 6 ltac:(done)) as Hm6.
  split; [|by intros ->].
  intros Heq%style_of_index_inj; lia.
Qed.

Lemma getProcessColor_by_number_witness :
  parseInt_of_digits (number_to_string 1) = Some (Z.of_nat 1) ∧
  parseInt_of_digits (number_to_string 7) = Some (Z.of_nat 7) ∧
  getProcessColor parseInt_of_digits "P7"
    = "bg-blue-600 text-white shadow-sm shadow-blue-900" ∧
  (getProcessColor parseInt_of_digits (pid_of_number 1)
     = getProcessColor parseInt_of_digits (pid_of_number 7)
   ↔ (1 mod 6 = 7 mod 6)%nat).
Proof.
  assert (parseInt_of_digits (number_to_string 1) = Some (Z.of_nat 1)) as H1
    by reflexivity.
  assert (parseInt_of_digits (number_to_string 7) = Some (Z.of_nat 7)) as H7
    by reflexivity.
  split; [exact H1|]. split; [exact H7|]. split; [reflexivity|].
  exact (proj2 (getProcessColor_by_number parseInt_of_digits 1 7 H1 H7)).
Defined.

(** * The input form *)

(** ** Decimal ids and values *)

Lemma string_of_uint_inj d d' :
  NilEmpty.string_of_uint d = NilEmpty.string_of_uint d' → d = d'.
Proof.
  intros H. apply (f_equal NilEmpty.uint_of_string) in H.
  rewrite !NilEmpty.usu in H. congruence.
Qed.

#[global] Instance number_to_string_inj : Inj (=) (=) number_to_string.
Proof.
  intros n m H. apply string_of_uint_inj in H.
  by apply DecimalNat.Unsigned.to_uint_inj.
Qed.

#[global] Instance pid_of_number_inj : Inj (=) (=) pid_of_number.
Proof. intros n m [= H]. by apply (inj number_to_string). Qed.

Lemma numbered_pids_S n :
  numbered_pids (S n) = numbered_pids n ++ [pid_of_number (n + 1)].
Proof. unfold numbered_pids. by rewrite seq_S, fmap_app. Qed.

Lemma numbered_pids_NoDup n : NoDup (numbered_pids n).
Proof.
  unfold numbered_pids. apply NoDup_fmap_2; [|apply NoDup_seq].
  intros k k' H%(inj pid_of_number). lia.
Qed.

Lemma numbered_pids_not_IDLE n : IDLE ∉ numbered_pids n.
Proof.
  unfold numbered_pids. intros (k & Hk & _)%list_elem_of_fmap.
  by apply (pid_of_number_not_IDLE (k + 1)).
Qed.

Lemma digits_value_nonneg value n : digits_value value = Some n → 0 ≤ n.
Proof.
  unfold digits_value. destruct (NilEmpty.uint_of_string value); [|done].
  intros [= <-]. lia.
Qed.

Lemma digits_value_decimal (n : N) :
  digits_value (NilEmpty.string_of_uint (N.to_uint n)) = Some (Z.of_N n).
Proof.
  unfold digits_value. rewrite NilEmpty.usu. simpl.
  by rewrite DecimalN.Unsigned.of_to.
Qed.

Lemma decimal_nonempty (n : N) : NilEmpty.string_of_uint (N.to_uint n) ≠ "".
Proof.
  destruct n as [|p]; [done|]. simpl.
  pose proof (DecimalPos.Unsigned.to_uint_nonnil p) as Hp.
  by destruct (Pos.to_uint p).
Qed.

(** ** [updateField] *)

(** What [updateField] does to the rows on an arrival or burst field:
    nothing, or it replaces the row at [i] by the same row with the field
    blanked or set to a number that is not negative. *)
Lemma updateField_numeric_rows i field value st st' :
  field ≠ FieldPid →
  updateField i field value st = Some st' →
  st_results st' = st_results st ∧
  st_ganttData st' = st_ganttData st ∧
  st_error st' = "" ∧
  (st_processes st' = st_processes st ∨
   ∃ row v, st_processes st !! i = Some row ∧
            (∀ n, v = Some n → 0 ≤ n) ∧
            st_processes st' = <[i := set_field field value v row]> (st_processes st)).
Proof.
  intros Hfield. unfold updateField.
  destruct field; [done|..];
    (destruct (digits_value value) as [n|] eqn:Hd;
     [destruct (st_processes st !! i) as [row|] eqn:Hrow; [|done];
      intros [= <-]; cbn [st_processes st_results st_ganttData st_error];
      split_and!; [done..|]; right; eexists row, _;
      split_and!; [done| |reflexivity];
      intros m; case_decide; [done|];
      intros [= <-]; by eapply digits_value_nonneg
     |intros [= <-]; cbn [st_processes st_results st_ganttData st_error];
      split_and!; [done..|]; by left]).
Qed.

Lemma set_field_pid field value v row :
  field ≠ FieldPid → in_pid (set_field field value v row) = in_pid row.
Proof. by destruct field. Qed.

(** X9.  Typing the decimal form of a number that a double holds exactly
    (at most [MAX_SAFE_INTEGER]) into the arrival or burst field of a row
    on screen stores that number in that field and leaves the id and the
    other field of the row as they are; typing text that is not made of
    digits changes no row. *)
Theorem updateField_stores_typed_number i field (n : N) text st row :
  field ≠ FieldPid →
  (n ≤ MAX_SAFE_INTEGER)%N →
  st_processes st !! i = Some row →
  digits_value text = None →
  (∃ st' row',
     updateField i field (NilEmpty.string_of_uint (N.to_uint n)) st = Some st' ∧
     st_processes st' !! i = Some row' ∧
     in_pid row' = in_pid row ∧
     (field = FieldArrival →
        in_arrival row' = Some (Z.of_N n) ∧ in_burst row' = in_burst row) ∧
     (field = FieldBurst →
        in_burst row' = Some (Z.of_N n) ∧ in_arrival row' = in_arrival row)) ∧
  (∃ st', updateField i field text st = Some st' ∧
          st_processes st' = st_processes st).
Proof.
  intros Hfield _ Hrow Htext.
  pose proof (lookup_lt_Some _ _ _ Hrow) as Hlt.
  destruct field; [done|..];
    (split;
     [eexists _, _; split_and!;
      [unfold updateField; rewrite digits_value_decimal, Hrow;
       rewrite decide_False by apply decimal_nonempty; reflexivity
      |cbn [st_processes]; by rewrite list_lookup_insert_eq by done
      |done
      |first [discriminate | by intros _]
      |first [discriminate | by intros _]]
     |eexists; split;
      [unfold updateField; rewrite Htext; reflexivity|done]]).
Qed.

Lemma updateField_stores_typed_number_witness :
  FieldBurst ≠ FieldPid ∧
  (42 ≤ MAX_SAFE_INTEGER)%N ∧
  st_processes initialPageState !! 1%nat = Some (mkProcessInput "P2" None None) ∧
  digits_value "4x" = None ∧
  updateField 1 FieldBurst "42" initialPageState
    = Some {| st_processes :=
                [ mkProcessInput "P1" None None;
                  mkProcessInput "P2" None (Some 42);
                  mkProcessInput "P3" None None;
                  mkProcessInput "P4" None None;
                  mkProcessInput "P5" None None ];
              st_results := None; st_ganttData := None; st_error := "" |} ∧
  ∃ st', updateField 1 FieldBurst "4x" initialPageState = Some st' ∧
         st_processes st' = st_processes initialPageState.
Proof.
  assert (FieldBurst ≠ FieldPid) as Hf by discriminate.
  assert (42 ≤ MAX_SAFE_INTEGER)%N as Hn by (unfold MAX_SAFE_INTEGER; lia).
  assert (st_processes initialPageState !! 1%nat
            = Some (mkProcessInput "P2" None None)) as Hrow by reflexivity.
  assert (digits_value "4x" = None) as Htext by reflexivity.
  split; [exact Hf|]. split; [exact Hn|]. split; [exact Hrow|].
  split; [exact Htext|]. split; [reflexivity|].
  exact (proj2 (updateField_stores_typed_number 1 FieldBurst 42 "4x"
                  initialPageState _ Hf Hn Hrow Htext)).
Defined.

(** X10.  Editing the arrival or the burst of a row never touches another
    row, the id of any row or the number of rows, stores no negative
    number, leaves the results on screen as they are, and clears the
    error message. *)
Theorem updateField_frame i field value st st' :
  field ≠ FieldPid →
  updateField i field value st = Some st' →
  length (st_processes st') = length (st_processes st) ∧
  in_pid <$> st_processes st' = in_pid <$> st_processes st ∧
  (∀ j, j ≠ i → st_processes st' !! j = st_processes st !! j) ∧
  (∀ row', st_processes st' !! i = Some row' →
     ∃ row, st_processes st !! i = Some row ∧
       (in_arrival row' = in_arrival row ∨ in_arrival row' = None ∨
        ∃ a, in_arrival row' = Some a ∧ 0 ≤ a) ∧
       (in_burst row' = in_burst row ∨ in_burst row' = None ∨
        ∃ b, in_burst row' = Some b ∧ 0 ≤ b)) ∧
  st_results st' = st_results st ∧
  st_ganttData st' = st_ganttData st ∧
  st_error st' = "".
Proof.
  intros Hfield Hst.
  destruct (updateField_numeric_rows i field value st st' Hfield Hst)
    as (Hres & Hgd & Herr & [Hsame|(row & v & Hrow & Hv & Hnew)]).
  - rewrite Hsame. split_and!; try done.
    intros row' Hrow'. exists row'. auto.
  - pose proof (lookup_lt_Some _ _ _ Hrow) as Hlt.
    rewrite Hnew. split_and!; [apply length_insert| | | |done..].
    + rewrite list_fmap_insert. apply list_insert_id.
      by rewrite list_lookup_fmap, Hrow, set_field_pid.
    + intros j Hj. by apply list_lookup_insert_ne.
    + intros row'. rewrite list_lookup_insert_eq by done.
      intros [= <-]. exists row. split; [done|].
      destruct field; [done|..]; cbn [set_field in_arrival in_burst];
        (split; [|]);
        first [by left
              |destruct v as [n|];
               [right; right; exists n; split; [done|by apply Hv]
               |by right; left]].
Qed.

Lemma updateField_frame_witness :
  FieldArrival ≠ FieldPid ∧
  updateField 0 FieldArrival "007" sample_page
    = Some {| st_processes :=
                [ mkProcessInput "P1" (Some 7) (Some 4);
                  mkProcessInput "P2" None (Some 3);
                  mkProcessInput "P3" (Some 2) (Some 2) ];
              st_results := None; st_ganttData := None; st_error := "" |} ∧
  in_pid <$> [ mkProcessInput "P1" (Some 7) (Some 4);
               mkProcessInput "P2" None (Some 3);
               mkProcessInput "P3" (Some 2) (Some 2) ]
    = in_pid <$> st_processes sample_page.
Proof.
  assert (FieldArrival ≠ FieldPid) as Hf by discriminate.
  split; [exact Hf|]. split; [reflexivity|].
  exact (proj1 (proj2 (updateField_frame 0 FieldArrival "007" sample_page _
                         Hf eq_refl))).
Defined.

(** ** [addProcess] and [removeProcess] *)

Lemma renumber_pids (g : nat → string) (l : list ProcessInput) :
  in_pid <$> imap (λ index p, {| in_pid := g index;
                                 in_arrival := in_arrival p;
                                 in_burst := in_burst p |}) l
  = g <$> seq 0 (length l).
Proof.
  revert g. induction l as [|p l IH]; intros g; [done|].
  rewrite imap_cons. cbn [length seq]. rewrite !fmap_cons. cbn [in_pid].
  f_equal. rewrite <- fmap_S_seq, <- list_fmap_compose. apply (IH (g ∘ S)).
Qed.

Lemma renumber_data {B} (f : ProcessInput → B) (g : nat → string)
    (l : list ProcessInput) :
  (∀ s p, f {| in_pid := s; in_arrival := in_arrival p; in_burst := in_burst p |}
          = f p) →
  f <$> imap (λ index p, {| in_pid := g index;
                            in_arrival := in_arrival p;
                            in_burst := in_burst p |}) l
  = f <$> l.
Proof.
  intros Hf. revert g. induction l as [|p l IH]; intros g; [done|].
  rewrite imap_cons, !fmap_cons, Hf. f_equal. apply (IH (g ∘ S)).
Qed.

(** X11.  After [removeProcess] the rows are numbered [P1], [P2], ...
    without a gap, whatever their ids were before, and their arrival and
    burst times are those of the rows before with the one at [i] taken
    out (none when [i] is past the end); the results on screen are
    cleared. *)
Theorem removeProcess_renumbers i st :
  let st' := removeProcess i st in
  in_pid <$> st_processes st' = numbered_pids (length (st_processes st')) ∧
  in_arrival <$> st_processes st' = delete i (in_arrival <$> st_processes st) ∧
  in_burst <$> st_processes st' = delete i (in_burst <$> st_processes st) ∧
  ((i < length (st_processes st))%nat →
     length (st_processes st') = (length (st_processes st) - 1)%nat) ∧
  ((length (st_processes st) ≤ i)%nat →
     length (st_processes st') = length (st_processes st)) ∧
  st_results st' = None ∧ st_ganttData st' = None.
Proof.
  intros st'. unfold st', removeProcess. cbn [st_processes st_results st_ganttData].
  rewrite length_imap.
  split_and!; [| | | | |done..].
  - by rewrite (renumber_pids (λ index, pid_of_number (index + 1))).
  - by rewrite (renumber_data in_arrival), list_fmap_delete.
  - by rewrite (renumber_data in_burst), list_fmap_delete.
  - intros Hi. rewrite length_delete; [done|]. by apply lookup_lt_is_Some.
  - intros Hi. rewrite delete_take_drop, take_ge, drop_ge, app_nil_r by lia. done.
Qed.

(** ** What the page can reach *)

Lemma page_step_invariant localeCompare fcfs_throws st st' :
  page_step localeCompare fcfs_throws st st' →
  page_invariant st → page_invariant st'.
Proof.
  assert (∀ i field value s s', field ≠ FieldPid →
    updateField i field value s = Some s' →
    page_invariant s → page_invariant s') as Hupdate.
  { intros i field value s s' Hfield Hs (Hpids & Hlen & Hnn).
    destruct (updateField_numeric_rows i field value s s' Hfield Hs)
      as (_ & _ & _ & [Hsame|(row & v & Hrow & Hv & Hnew)]).
    { unfold page_invariant. rewrite Hsame. by split_and!. }
    pose proof (lookup_lt_Some _ _ _ Hrow) as Hlt.
    rewrite Forall_lookup in Hnn. destruct (Hnn _ _ Hrow) as [Hna Hnb].
    unfold page_invariant. rewrite Hnew, length_insert.
    split_and!; [|done|].
    - rewrite list_fmap_insert, list_insert_id; [done|].
      by rewrite list_lookup_fmap, Hrow, set_field_pid.
    - apply Forall_insert; [by apply Forall_lookup|].
      destruct field; [done|..]; cbn [set_field in_arrival in_burst];
        (split; [|]); first [done | intros m ->; by apply Hv]. }
  intros Hstep (Hpids & Hlen & Hnn).
  destruct Hstep as [i value st st' Hs|i value st st' Hs|st|i st Hmany Hi|st].
  - by eapply (Hupdate i FieldArrival).
  - by eapply (Hupdate i FieldBurst).
  - unfold addProcess, page_invariant. cbn [st_processes].
    rewrite length_app, fmap_app, Hpids. cbn [length].
    replace (length (st_processes st) + 1)%nat with (S (length (st_processes st)))
      by lia.
    split_and!; [|lia|].
    + rewrite numbered_pids_S. simpl. do 3 f_equal. lia.
    + apply Forall_app. split; [done|]. repeat constructor; done.
  - unfold removeProcess, page_invariant. cbn [st_processes].
    rewrite length_imap, length_delete by (by apply lookup_lt_is_Some).
    split_and!; [|lia|].
    + rewrite (renumber_pids (λ index, pid_of_number (index + 1))).
      rewrite length_delete by (by apply lookup_lt_is_Some). done.
    + apply Forall_lookup. intros j row' Hj.
      apply list_lookup_imap_Some in Hj as (row & Hrow & ->).
      cbn [in_arrival in_burst].
      rewrite Forall_forall in Hnn. apply Hnn.
      apply list_elem_of_lookup_2 in Hrow.
      by eapply list_elem_of_delete_inv.
  - unfold calculateFCFS, page_invariant.
    repeat case_decide; [..|destruct (fcfs_throws _)];
      cbn [st_processes]; done.
Qed.

(** The invariant is kept along any run of the page. *)
Lemma rtc_page_step_invariant localeCompare fcfs_throws st st' :
  rtc (page_step localeCompare fcfs_throws) st st' →
  page_invariant st → page_invariant st'.
Proof.
  induction 1 as [|st mid st' Hstep _ IH]; [done|].
  intros Hinv. apply IH. by eapply page_step_invariant.
Qed.

(** X12.  Whatever the user does (edit arrival and burst fields, add rows,
    remove rows while more than one is left, calculate), the rows of the
    page are numbered [P1] to [Pn] with [n >= 1], and every arrival and
    burst time stored is an integer that is not negative. *)
Theorem reachable_page_invariant localeCompare fcfs_throws st :
  reachable localeCompare fcfs_throws st → page_invariant st.
Proof.
  intros Hreach.
  eapply rtc_page_step_invariant; [exact Hreach|].
  split_and!; [done|simpl; lia|].
  repeat constructor; done.
Qed.

Lemma reachable_page_invariant_witness :
  reachable codeUnitCompare exceeds_array_length (addProcess initialPageState) ∧
  in_pid <$> st_processes (addProcess initialPageState)
    = ["P1"; "P2"; "P3"; "P4"; "P5"; "P6"] ∧
  page_invariant (addProcess initialPageState).
Proof.
  assert (reachable codeUnitCompare exceeds_array_length
            (addProcess initialPageState)) as Hreach
    by (apply rtc_once, step_add).
  split; [exact Hreach|]. split; [reflexivity|].
  exact (reachable_page_invariant codeUnitCompare exceeds_array_length _ Hreach).
Defined.

(** ** [calculateFCFS] *)

Lemma complete_in_range_well_formed (valid : list ProcessInput) :
  Forall is_complete valid →
  ¬ Exists is_out_of_range valid →
  well_formed (to_numeric <$> valid) ∧
  Forall (λ p, burst p ≤ MAX_TIME_UNIT) (to_numeric <$> valid).
Proof.
  intros Hc Hr%not_Exists_Forall; [|apply _].
  unfold well_formed. rewrite !Forall_fmap.
  rewrite Forall_forall in Hc, Hr.
  split; apply Forall_forall; intros p Hp;
    specialize (Hc p Hp); specialize (Hr p Hp);
    unfold is_complete, is_out_of_range, to_numeric in *; simpl in *;
    destruct (in_arrival p), (in_burst p); simpl; try (destruct Hc; done); lia.
Qed.

Lemma filter_is_complete (l : list ProcessInput) :
  Forall is_complete (filter is_complete l).
Proof. apply Forall_forall. by intros p [? _]%list_elem_of_filter. Qed.

(** A calculation that reports no error ran the scheduler on the complete
    rows, which are in range. *)
Lemma calculateFCFS_accepted localeCompare fcfs_throws st :
  st_error (calculateFCFS localeCompare fcfs_throws st) = "" →
  let numeric := to_numeric <$> filter is_complete (st_processes st) in
  numeric ≠ [] ∧ well_formed numeric ∧
  st_results (calculateFCFS localeCompare fcfs_throws st)
    = Some (results (fcfs localeCompare numeric)) ∧
  st_ganttData (calculateFCFS localeCompare fcfs_throws st)
    = Some {| gd_ganttBlocks := ganttBlocks (fcfs localeCompare numeric);
              gd_timeMarkers := timeMarkers (fcfs localeCompare numeric);
              gd_totalTime := totalTime (fcfs localeCompare numeric) |}.
Proof.
  unfold calculateFCFS.
  destruct (decide (length (filter is_complete (st_processes st)) = 0%nat))
    as [Hlen|Hlen]; [discriminate|].
  destruct (decide (Exists is_out_of_range (filter is_complete (st_processes st))))
    as [Hbad|Hok]; [discriminate|].
  destruct (fcfs_throws _); [discriminate|].
  intros _. cbn [st_results st_ganttData].
  destruct (complete_in_range_well_formed _ (filter_is_complete _) Hok)
    as [Hwf _].
  split_and!; [|done..].
  intros Hnil%fmap_nil_inv. by rewrite Hnil in Hlen.
Qed.

(** X13.  [calculateFCFS] leaves the rows alone and has four outcomes.
    With no row that has both an arrival and a burst time, or with such a
    row that has a negative arrival, a burst of 0 or less or a burst above
    500, it rejects: it sets the message of that case and clears the
    results and the chart.  Otherwise [fcfs] is called on the complete
    rows, the rows with a blank field being dropped, an input that is not
    empty and is well formed, with bursts of at most 500.  When that
    call raises, the error is the unexpected-error message and the results
    and the chart stay as they were; when it returns, the error is cleared
    and the results and the chart are its output.  So the error is empty
    afterwards exactly when the call was made and returned. *)
Theorem calculateFCFS_validates localeCompare fcfs_throws st :
  let valid := filter is_complete (st_processes st) in
  let numeric := to_numeric <$> valid in
  let st' := calculateFCFS localeCompare fcfs_throws st in
  st_processes st' = st_processes st ∧
  (valid = [] →
     st_error st' = no_valid_process_message ∧
     st_results st' = None ∧ st_ganttData st' = None) ∧
  (valid ≠ [] → Exists is_out_of_range valid →
     st_error st' = out_of_range_message ∧
     st_results st' = None ∧ st_ganttData st' = None) ∧
  (valid ≠ [] → ¬ Exists is_out_of_range valid →
     numeric ≠ [] ∧ well_formed numeric ∧
     Forall (λ p, burst p ≤ MAX_TIME_UNIT) numeric ∧
     (fcfs_throws numeric = true →
        st_error st' = unexpected_error_message ∧
        st_results st' = st_results st ∧
        st_ganttData st' = st_ganttData st) ∧
     (fcfs_throws numeric = false →
        st_error st' = "" ∧
        st_results st' = Some (results (fcfs localeCompare numeric)) ∧
        st_ganttData st' =
          Some {| gd_ganttBlocks := ganttBlocks (fcfs localeCompare numeric);
                  gd_timeMarkers := timeMarkers (fcfs localeCompare numeric);
                  gd_totalTime := totalTime (fcfs localeCompare numeric) |})) ∧
  (st_error st' = "" ↔
     valid ≠ [] ∧ ¬ Exists is_out_of_range valid ∧ fcfs_throws numeric = false).
Proof.
  intros valid numeric st'. unfold st', calculateFCFS.
  fold valid. fold numeric.
  destruct (decide (length valid = 0%nat)) as [Hlen|Hlen].
  { apply length_zero_iff_nil in Hlen.
    cbn [st_processes st_results st_ganttData st_error].
    split_and!; [done|done|done|done|].
    split; [discriminate|]. by intros [? _]. }
  assert (valid ≠ []) as Hne by (intros Hnil; by rewrite Hnil in Hlen).
  destruct (decide (Exists is_out_of_range valid)) as [Hbad|Hok].
  { cbn [st_processes st_results st_ganttData st_error].
    split_and!; [done|done|done|done|].
    split; [discriminate|]. by intros (_ & ? & _). }
  destruct (complete_in_range_well_formed valid (filter_is_complete _) Hok)
    as [Hwf Hmax].
  assert (numeric ≠ []) as Hnum.
  { unfold numeric. by intros Hnil%fmap_nil_inv. }
  destruct (fcfs_throws numeric) eqn:Hthrows;
    cbn [st_processes st_results st_ganttData st_error].
  - split_and!; [done|done|done| |].
    + intros _ _. split_and!; [done..| |discriminate]. done.
    + split; [discriminate|]. by intros (_ & _ & ?).
  - split_and!; [done|done|done| |].
    + intros _ _. split_and!; [done..|discriminate|]. done.
    + done.
Qed.

Lemma calculateFCFS_validates_witness :
  st_error (calculateFCFS codeUnitCompare exceeds_array_length sample_page) = "" ∧
  st_results (calculateFCFS codeUnitCompare exceeds_array_length sample_page)
    = Some [ mkProcessResult "P1" 0 4 4 4 0; mkProcessResult "P3" 2 2 6 4 2 ] ∧
  calculateFCFS codeUnitCompare exceeds_array_length overlong_page
    = {| st_processes := st_processes overlong_page;
         st_results := st_results overlong_page;
         st_ganttData := st_ganttData overlong_page;
         st_error := unexpected_error_message |} ∧
  st_processes (calculateFCFS codeUnitCompare exceeds_array_length sample_page)
    = st_processes sample_page.
Proof.
  split; [reflexivity|]. split; [reflexivity|]. split; [reflexivity|].
  exact (proj1 (calculateFCFS_validates codeUnitCompare exceeds_array_length
                  sample_page)).
Defined.

(** X14.  On every page a user can reach, a calculation that reports no
    error lists each row that has both an arrival and a burst time exactly
    once in the results (the ids of the results are distinct and are those
    of the complete rows), and draws exactly one bar for it in the chart;
    no row waits a negative time. *)
Theorem calculated_page_shows_each_row_once localeCompare fcfs_throws st :
  reachable localeCompare fcfs_throws st →
  st_error (calculateFCFS localeCompare fcfs_throws st) = "" →
  ∃ rs gd,
    st_results (calculateFCFS localeCompare fcfs_throws st) = Some rs ∧
    st_ganttData (calculateFCFS localeCompare fcfs_throws st) = Some gd ∧
    res_pid <$> rs ≡ₚ in_pid <$> filter is_complete (st_processes st) ∧
    NoDup (res_pid <$> rs) ∧
    (∀ row, row ∈ st_processes st → is_complete row →
       blocks_of (in_pid row) (gd_ganttBlocks gd) = 1%nat) ∧
    (∀ r, r ∈ rs → 0 ≤ waiting r).
Proof.
  intros Hreach Herr.
  assert (page_invariant st) as (Hpids & _ & _).
  { eapply rtc_page_step_invariant; [exact Hreach|].
    split_and!; [done|simpl; lia|]. repeat constructor; done. }
  destruct (calculateFCFS_accepted localeCompare fcfs_throws st Herr)
    as (Hne & Hwf & Hrs & Hgd).
  set (valid := filter is_complete (st_processes st)) in *.
  set (numeric := to_numeric <$> valid) in *.
  assert (pid <$> numeric = in_pid <$> valid) as Hnum.
  { unfold numeric. rewrite <- list_fmap_compose. done. }
  assert (NoDup (in_pid <$> valid)) as Hnd.
  { apply (sublist_NoDup _ (in_pid <$> st_processes st));
      [|apply fmap_sublist, sublist_filter].
    rewrite Hpids. apply numbered_pids_NoDup. }
  assert (IDLE ∉ in_pid <$> valid) as Hidle.
  { intros Hin. apply (numbered_pids_not_IDLE (length (st_processes st))).
    rewrite <- Hpids.
    eapply elem_of_sublist; [exact Hin|apply fmap_sublist, sublist_filter]. }
  assert (res_pid <$> results (fcfs localeCompare numeric) ≡ₚ in_pid <$> valid)
    as Hperm.
  { rewrite fcfs_results, <- Hnum.
    rewrite <- (procs_perm localeCompare numeric) at 2.
    rewrite <- (schedule_from_processes 0 (procs localeCompare numeric)) at 2.
    by rewrite <- list_fmap_compose. }
  eexists _, _. split_and!; [exact Hrs|exact Hgd|exact Hperm| | |].
  - by rewrite Hperm.
  - intros row Hrow Hcomplete. cbn [gd_ganttBlocks].
    change (in_pid row) with (pid (to_numeric row)).
    rewrite blocks_of_labels, fcfs_ganttBlocks, runs_from_labels.
    pose proof (procs_perm localeCompare numeric) as Hp.
    apply timeline_from_one_run.
    + by apply well_formed_burst_pos, sorted_well_formed.
    + by rewrite Hp, Hnum.
    + by rewrite Hp, Hnum.
    + rewrite Hp. apply list_elem_of_fmap_2. by apply list_elem_of_filter.
  - intros r. rewrite fcfs_results.
    intros (clock & p & _ & ->)%schedule_from_elem_of.
    destruct (schedule_entry_metrics clock p) as [Hw _]. rewrite Hw. lia.
Qed.

Lemma calculated_page_shows_each_row_once_witness :
  reachable codeUnitCompare exceeds_array_length edited_page ∧
  st_error (calculateFCFS codeUnitCompare exceeds_array_length edited_page) = "" ∧
  st_results (calculateFCFS codeUnitCompare exceeds_array_length edited_page)
    = Some [ mkProcessResult "P1" 0 5 5 5 0 ] ∧
  ∃ rs gd,
    st_results (calculateFCFS codeUnitCompare exceeds_array_length edited_page) = Some rs ∧
    st_ganttData (calculateFCFS codeUnitCompare exceeds_array_length edited_page) = Some gd ∧
    res_pid <$> rs ≡ₚ in_pid <$> filter is_complete (st_processes edited_page) ∧
    NoDup (res_pid <$> rs) ∧
    (∀ row, row ∈ st_processes edited_page → is_complete row →
       blocks_of (in_pid row) (gd_ganttBlocks gd) = 1%nat) ∧
    (∀ r, r ∈ rs → 0 ≤ waiting r).
Proof.
  assert (reachable codeUnitCompare exceeds_array_length edited_page) as Hreach.
  { eapply rtc_l; [apply (step_update_arrival _ _ 0 "0"); reflexivity|].
    eapply rtc_l; [apply (step_update_burst _ _ 0 "5"); reflexivity|].
    apply rtc_refl. }
  assert (st_error (calculateFCFS codeUnitCompare exceeds_array_length edited_page) = "") as Herr
    by reflexivity.
  split; [exact Hreach|]. split; [exact Herr|]. split; [reflexivity|].
  exact (calculated_page_shows_each_row_once codeUnitCompare
           exceeds_array_length edited_page
           Hreach Herr).
Defined.

(** X15.  On a page whose rows are numbered [P1] to [Pn], adding a row
    and removing it again gives back the rows there were. *)
Theorem removeProcess_addProcess st :
  in_pid <$> st_processes st = numbered_pids (length (st_processes st)) →
  st_processes (removeProcess (length (st_processes st)) (addProcess st))
  = st_processes st.
Proof.
  intros Hpids. unfold removeProcess, addProcess. cbn [st_processes].
  rewrite (delete_middle _ []), app_nil_r.
  apply list_eq. intros j. rewrite list_lookup_imap.
  destruct (st_processes st !! j) as [row|] eqn:Hrow; [|done].
  simpl. f_equal.
  assert (in_pid row = pid_of_number (j + 1)) as Hpid.
  { apply (f_equal (λ l, l !! j)) in Hpids.
    rewrite list_lookup_fmap, Hrow in Hpids. simpl in Hpids.
    unfold numbered_pids in Hpids. rewrite list_lookup_fmap in Hpids.
    rewrite lookup_seq_lt in Hpids by (by eapply lookup_lt_Some).
    simpl in Hpids. congruence. }
  destruct row as [p a b]. simpl in *. by rewrite Hpid.
Qed.

Lemma removeProcess_addProcess_witness :
  in_pid <$> st_processes initialPageState
    = numbered_pids (length (st_processes initialPageState)) ∧
  st_processes (addProcess initialPageState) !! 5%nat
    = Some (mkProcessInput "P6" None None) ∧
  st_processes (removeProcess 5 (addProcess initialPageState))
    = st_processes initialPageState.
Proof.
  assert (in_pid <$> st_processes initialPageState
            = numbered_pids (length (st_processes initialPageState))) as Hpids
    by reflexivity.
  split; [exact Hpids|]. split; [reflexivity|].
  exact (removeProcess_addProcess initialPageState Hpids).
Defined.

(** * The order of the rows does not matter *)

Lemma filter_same_key_at_most_one k (l : list Process) :
  NoDup (pid <$> l) → (length (filter (same_key k) l) ≤ 1)%nat.
Proof.
  induction l as [|p l IH]; [simpl; lia|].
  rewrite fmap_cons, NoDup_cons. intros [Hp Hnd].
  rewrite filter_cons. case_decide as Hk; [|by apply IH].
  assert (filter (same_key k) l = []) as ->; [|simpl; lia].
  destruct (filter (same_key k) l) as [|q l'] eqn:Hf; [done|]. exfalso.
  assert (q ∈ filter (same_key k) l) as [[_ Hqk] Hq]%list_elem_of_filter
    by (rewrite Hf; left).
  apply Hp. destruct Hk as [_ Hpk]. rewrite Hpk, <- Hqk.
  by apply list_elem_of_fmap_2.
Qed.

Lemma Permutation_short_eq {A} (l1 l2 : list A) :
  l1 ≡ₚ l2 → (length l1 ≤ 1)%nat → l1 = l2.
Proof.
  intros Hp Hl. pose proof (Permutation_length Hp) as Hlen.
  destruct l1 as [|x [|? ?]]; [|  |simpl in Hl; lia].
  - destruct l2; [done|discriminate].
  - destruct l2 as [|y [|? ?]]; try discriminate.
    apply Permutation_singleton_inj in Hp. by subst.
Qed.

(** X16.  When the ids of the input are pairwise distinct and the
    collation of the host agrees with the lexicographic order on them, the
    output of [fcfs] does not depend on the order in which the processes
    are given: two inputs that are permutations of each other have the
    same results, blocks, markers and total time. *)
Theorem fcfs_input_order_irrelevant localeCompare ps qs :
  collates_lexicographically localeCompare (pid <$> ps) →
  NoDup (pid <$> ps) →
  ps ≡ₚ qs →
  fcfs localeCompare ps = fcfs localeCompare qs.
Proof.
  intros Hcol Hnd Hperm.
  assert (procs localeCompare ps = procs localeCompare qs) as Heq;
    [|unfold fcfs; by rewrite Heq].
  rewrite !procs_sort.
  assert (∀ l, l ≡ₚ ps →
    StronglySorted arrival_then_pid (Array_sort (compareProcs localeCompare) l))
    as Hsorted.
  { intros l Hl. apply Array_sort_sorted; [apply _|..]; intros x y Hx Hy.
    - apply (compareProcs_gt _ _ Hcol); apply list_elem_of_fmap_2;
        by rewrite <- Hl.
    - apply (compareProcs_le _ _ Hcol); apply list_elem_of_fmap_2;
        by rewrite <- Hl. }
  apply stable_sorted_unique; [by apply Hsorted..|].
  intros k. apply Permutation_short_eq.
  - by rewrite !Array_sort_perm, Hperm.
  - apply filter_same_key_at_most_one. by rewrite Array_sort_perm.
Qed.

Lemma fcfs_input_order_irrelevant_witness :
  collates_lexicographically codeUnitCompare (pid <$> tie_break_input) ∧
  NoDup (pid <$> tie_break_input) ∧
  tie_break_input ≡ₚ reverse tie_break_input ∧
  fcfs codeUnitCompare tie_break_input
    = fcfs codeUnitCompare (reverse tie_break_input).
Proof.
  assert (collates_lexicographically codeUnitCompare (pid <$> tie_break_input))
    as Hcol.
  { intros a b _ _. unfold codeUnitCompare.
    destruct (String.compare a b); reflexivity. }
  assert (NoDup (pid <$> tie_break_input)) as Hnd by compute_done.
  assert (tie_break_input ≡ₚ reverse tie_break_input) as Hperm
    by (symmetry; apply reverse_Permutation).
  split; [exact Hcol|]. split; [exact Hnd|]. split; [exact Hperm|].
  exact (fcfs_input_order_irrelevant codeUnitCompare tie_break_input _
           Hcol Hnd Hperm).
Defined.

Lemma fcfs_blocks_are_intervals_witness :
  mkGanttBlock "IDLE" 5 9 ∈ ganttBlocks (fcfs codeUnitCompare late_arrivals_input) ∧
  totalTime (fcfs codeUnitCompare late_arrivals_input) = 10 ∧
  0 ≤ start (mkGanttBlock "IDLE" 5 9) ∧
  start (mkGanttBlock "IDLE" 5 9) < end_ (mkGanttBlock "IDLE" 5 9) ∧
  end_ (mkGanttBlock "IDLE" 5 9) ≤ totalTime (fcfs codeUnitCompare late_arrivals_input) ∧
  (process (mkGanttBlock "IDLE" 5 9) = IDLE ∨
   process (mkGanttBlock "IDLE" 5 9) ∈ pid <$> late_arrivals_input).
Proof.
  assert (mkGanttBlock "IDLE" 5 9
            ∈ ganttBlocks (fcfs codeUnitCompare late_arrivals_input)) as Hin
    by (right; right; left).
  split; [exact Hin|]. split; [reflexivity|].
  exact (fcfs_blocks_are_intervals codeUnitCompare late_arrivals_input _ Hin).
Defined.
